(** * shlep: traversal engine, import resolver and code generator

    A shallow embedding of [src/traverse.ts], of the import resolver
    ([Context], with [Command] and [Import]) and of the code generator
    ([defSource], [getSourceText], [codegen]), over the tree model declared in
    [types/bash-parser/bash-ast.d.ts]. *)

From Stdlib Require Import ZArith Ascii String.
From stdpp Require Import base option list strings gmap.

Scheme All for list.
Scheme All for option.

Local Open Scope string_scope.

(** ** Exceptions

    JavaScript code fails by throwing.  A computation that may throw returns a
    [result]; [Throw] short-circuits every later step, as an uncaught
    exception does (no [try] occurs anywhere in the sources). *)

Inductive error : Type :=
| TypeError (msg : string)      (* property access on undefined, and the like *)
| ENOENT (path : string)        (* fs.readFileSync on a path that does not exist *)
| EISDIR (path : string)        (* fs.readFileSync on a directory *)
| SyntaxError (msg : string)    (* thrown by the external parser *)
| ShapeError (field : string).  (* a rewritten child that the typed tree cannot hold *)

Inductive result (A : Type) : Type :=
| Ok (a : A)
| Throw (e : error).
Arguments Ok {A} a.
Arguments Throw {A} e.

#[global] Instance result_ret : MRet result := fun _ a => Ok a.
#[global] Instance result_bind : MBind result := fun _ _ f m =>
  match m with
  | Ok a => f a
  | Throw e => Throw e
  end.

(** ** The tree model ([bash-ast.d.ts])

    One record per interface whose fields the program reads, polymorphic in
    the type of child nodes so that the union [Node] can nest them.  The [loc]
    field is left out: no code reads it and the parser only fills it under the
    [insertLOC] option. *)

Record NameT : Type := mkName { n_text : string }.

Record WordT (A : Type) : Type := mkWord {
  w_text : string;
  w_expansion : list A
}.
Scheme All for WordT.
Arguments mkWord {A} _ _.
Arguments w_text {A} _.
Arguments w_expansion {A} _.

Record CompoundListT (A : Type) : Type := mkCompoundList {
  cl_commands : list A;
  cl_redirections : list A
}.
Scheme All for CompoundListT.
Arguments mkCompoundList {A} _ _.
Arguments cl_commands {A} _.
Arguments cl_redirections {A} _.

(** [name] is optional in the declaration ([name?: Word]); [prefix] and
    [suffix] are declared as arrays, but the code generator guards both with
    [node.prefix ? ... : ""], so an absent array is part of the data. *)
Record CommandT (A : Type) : Type := mkCommand {
  cmd_name : option (WordT A);
  cmd_prefix : option (list A);
  cmd_suffix : option (list A)
}.
Scheme All for CommandT.
Arguments mkCommand {A} _ _ _.
Arguments cmd_name {A} _.
Arguments cmd_prefix {A} _.
Arguments cmd_suffix {A} _.

Record FunctionT (A : Type) : Type := mkFunction {
  fn_name : NameT;
  fn_redirections : list A;
  fn_body : CompoundListT A
}.
Scheme All for FunctionT.
Arguments mkFunction {A} _ _ _.
Arguments fn_name {A} _.
Arguments fn_redirections {A} _.
Arguments fn_body {A} _.

(** The three branches are guarded by [node.clause ? ...], [node.then ? ...]
    and [node.else ? ...] in the generator, hence optional. *)
Record IfT (A : Type) : Type := mkIf {
  if_clause : option (CompoundListT A);
  if_then : option (CompoundListT A);
  if_else : option (CompoundListT A)
}.
Scheme All for IfT.
Arguments mkIf {A} _ _ _.
Arguments if_clause {A} _.
Arguments if_then {A} _.
Arguments if_else {A} _.

Inductive Node : Type :=
| Script (commands : list Node)
| Pipeline (commands : list Node)
| LogicalExpression (op : string) (left_ right_ : Node)
| Command (c : CommandT Node)
| Function (f : FunctionT Node)
| Name (n : NameT)
| CompoundList (c : CompoundListT Node)
| Subshell (list_ : CompoundListT Node)
| For (name : NameT) (wordlist : list Node) (do_ : CompoundListT Node)
| Case (clause : WordT Node) (cases : list Node)
| CaseItem (pattern : list Node) (body : CompoundListT Node)
| If (i : IfT Node)
| While (clause do_ : CompoundListT Node)
| Until (clause do_ : CompoundListT Node)
| Redirect (op : string) (file : WordT Node) (numberIo : Z)
| Word (w : WordT Node)
| AssignmentWord (w : WordT Node)
| ArithmeticExpansion (expression : string) (resolved : bool)
| CommandExpansion (command : string) (resolved : bool) (commandAST : Node)
| ParameterExpansion (parameter : string) (kind word op : option string).

(** The [type] tag of a node. *)
Inductive NodeType : Type :=
| TScript | TPipeline | TLogicalExpression | TCommand | TFunction | TName
| TCompoundList | TSubshell | TFor | TCase | TCaseItem | TIf | TWhile
| TUntil | TRedirect | TWord | TAssignmentWord | TArithmeticExpansion
| TCommandExpansion | TParameterExpansion.

#[global] Instance NodeType_eq_dec : EqDecision NodeType.
Proof. solve_decision. Defined.

Definition type (n : Node) : NodeType :=
  match n with
  | Script _ => TScript
  | Pipeline _ => TPipeline
  | LogicalExpression _ _ _ => TLogicalExpression
  | Command _ => TCommand
  | Function _ => TFunction
  | Name _ => TName
  | CompoundList _ => TCompoundList
  | Subshell _ => TSubshell
  | For _ _ _ => TFor
  | Case _ _ => TCase
  | CaseItem _ _ => TCaseItem
  | If _ => TIf
  | While _ _ => TWhile
  | Until _ _ => TUntil
  | Redirect _ _ _ => TRedirect
  | Word _ => TWord
  | AssignmentWord _ => TAssignmentWord
  | ArithmeticExpansion _ _ => TArithmeticExpansion
  | CommandExpansion _ _ _ => TCommandExpansion
  | ParameterExpansion _ _ _ _ => TParameterExpansion
  end.

(** ** Values that flow through [visit]

    [visit] receives and returns a node, [null], [undefined] or, once a
    handler has answered with one, an array of nodes
    ([VisitorFunc<T> = (node: T) => AST.Node | AST.Node[] | void]). *)

Inductive value : Type :=
| VUndefined
| VNull
| VNode (n : Node)
| VArray (ns : list Node).

(** ** [traverse.ts] *)

(** The [context] array [[parent, ast, visitor]] that [visit] spreads after the
    node when it calls a handler.  Its third component, the user visitor, is
    read by the descend table only; here that table receives it as an argument
    of its own (see [traverseNode_with]), which keeps [Visitor] a plain record. *)
Record context : Type := mkContext {
  ctx_parent : option Node;   (* [null] at the root *)
  ctx_ast : value
}.

(** A visitor table: [visitor[node.type]] and [visitor.defaultMethod].  A
    handler found under a type tag is only ever applied to a node; the default
    method is applied to whatever non-null value [visit] holds. *)
Record Visitor : Type := mkVisitor {
  methods : NodeType -> option (Node -> context -> result value);
  defaultMethod : option (value -> context -> result value)
}.

(** The third parameter of [visit]: a table, or an array of visitors
    ([Array.isArray(visitor)]). *)
Inductive VisitorArg : Type :=
| Table (t : Visitor)
| Many (vs : list VisitorArg).

(** Lines 27-33 of [visit]: the handler resolved for [node], already applied
    to the node.  An array has no [type], and [visitor[undefined]] is not a
    function in a table keyed by type tags, so an array can only reach the
    default method. *)
Definition resolve_handler (t : Visitor) (node : value)
  : option (context -> result value) :=
  match node with
  | VNode n =>
      match methods t (type n) with
      | Some m => Some (m n)
      | None => (fun d => d node) <$> defaultMethod t
      end
  | _ => (fun d => d node) <$> defaultMethod t
  end.

Fixpoint visit (node : value) (ctx : context) (visitor : VisitorArg)
  : result value :=
  match node with
  | VNull | VUndefined => Ok VNull
  | VNode _ | VArray _ =>
      match visitor with
      | Many vs =>
          (fix reduce (vs : list VisitorArg) (n : value) : result value :=
             match vs with
             | [] => Ok n
             | v :: vs' => newNode ← visit n ctx v; reduce vs' newNode
             end) vs node
      | Table t =>
          out ← match resolve_handler t node with
                | Some h => h ctx
                | None => Ok node
                end;
          Ok (match out with VUndefined => node | _ => out end)
      end
  end.

(** [visitor.reduce((n, v) => visit(n, context, v), node)] as a function of
    its own, to state what the fold does. *)
Fixpoint reduce_visit (ctx : context) (vs : list VisitorArg) (n : value)
  : result value :=
  match vs with
  | [] => Ok n
  | v :: vs' => newNode ← visit n ctx v; reduce_visit ctx vs' newNode
  end.

Section TraverseNodeWith.

(** [const DescendVisitor = require("./descend-visitor")(traverseNode)]: the
    table of the generic descend step.  It is applied to the user visitor,
    which the JavaScript table reads from the context instead. *)
Variable DescendVisitor : VisitorArg -> Visitor.

Definition traverseNode_with (parent : option Node) (ast : value)
    (visitor : VisitorArg) : value -> result value :=
  fun node =>
    visit node (mkContext parent ast)
      (Many [Table (DescendVisitor visitor); visitor]).

Definition traverse_with (ast : value) (visitor : VisitorArg)
  : result value :=
  traverseNode_with None ast visitor ast.

End TraverseNodeWith.

(** The empty table [{}]: no key is a node type. *)
Definition empty_visitor : Visitor := mkVisitor (fun _ => None) None.

(** ** The generic descend step

    [src/descend-visitor.js], the module behind
    [require("./descend-visitor")(traverseNode)], is not among the sources;
    the definitions of this part follow section 4.1 of the specification. *)

(** Modelled from the spec: the missing descend table must let a child of a
    sequence-valued field come back as an array, which is spliced in place
    of the element, or as null, in which case the element is left out.
    [splice] is what one visited element contributes to the field. *)
Definition splice (v : value) : list Node :=
  match v with
  | VNode n => [n]
  | VArray ns => ns
  | VNull | VUndefined => []
  end.

(** Modelled from the spec: the rewrite of a sequence-valued field of the
    missing descend table ([Script.commands], [CompoundList.commands], ...),
    element by element and in order. *)
Definition visit_seq (kid : Node -> result value)
  : list Node -> result (list Node) :=
  fix go (l : list Node) : result (list Node) :=
    match l with
    | [] => Ok []
    | c :: l' => r ← kid c; rest ← go l'; Ok (splice r ++ rest)%list
    end.

Definition visit_opt_seq (kid : Node -> result value) (o : option (list Node))
  : result (option (list Node)) :=
  match o with
  | Some l => l' ← visit_seq kid l; Ok (Some l')
  | None => Ok None
  end.

Definition as_CompoundList (field : string) (v : value)
  : result (CompoundListT Node) :=
  match v with
  | VNode (CompoundList c) => Ok c
  | _ => Throw (ShapeError field)
  end.

Definition as_Word (field : string) (v : value) : result (WordT Node) :=
  match v with
  | VNode (Word w) => Ok w
  | _ => Throw (ShapeError field)
  end.

Definition as_Name (field : string) (v : value) : result NameT :=
  match v with
  | VNode (Name n) => Ok n
  | _ => Throw (ShapeError field)
  end.

Definition as_Node (field : string) (v : value) : result Node :=
  match v with
  | VNode n => Ok n
  | _ => Throw (ShapeError field)
  end.

(** An optional field: absent stays absent, and a visitor answering null
    removes the child. *)
Definition visit_opt {A : Type} (kid : A -> result value)
    (back : value -> result A) (o : option A) : result (option A) :=
  match o with
  | None => Ok None
  | Some a =>
      v ← kid a;
      match v with
      | VNull => Ok None
      | _ => a' ← back v; Ok (Some a')
      end
  end.

Section DescendStep.

(** [kid parent child] stands for [traverseNode(parent, ast, visitor)(child)]
    on a child node; [kid_cl] and [kid_leaf] are the same call on a child
    held in a typed field (a [CompoundList], a [Word], a [Name]). *)
Variable kid : Node -> Node -> result value.
Variable kid_cl : Node -> CompoundListT Node -> result value.
Variable kid_leaf : Node -> Node -> result value.

Definition descend_CompoundList (c : CompoundListT Node) : result value :=
  let node := CompoundList c in
  cs ← visit_seq (kid node) (cl_commands c);
  rs ← visit_seq (kid node) (cl_redirections c);
  Ok (VNode (CompoundList (mkCompoundList cs rs))).

Definition cl_field (node : Node) (field : string) (c : CompoundListT Node)
  : result (CompoundListT Node) :=
  v ← kid_cl node c; as_CompoundList field v.

Definition word_field (node : Node) (field : string) (w : WordT Node)
  : result (WordT Node) :=
  v ← kid_leaf node (Word w); as_Word field v.

Definition name_field (node : Node) (field : string) (n : NameT)
  : result NameT :=
  v ← kid_leaf node (Name n); as_Name field v.

(** Modelled from the spec: the handlers of the missing descend table.  For
    each composite node type the handler rewrites every child field by
    running the full chain (descend step, then user visitor) on it and
    reassembles a node of the same type; leaf types ([Word], [Name],
    [AssignmentWord], the expansions) have no descend behaviour.  The tree is
    typed, so a single-valued field can only take back a node of the declared
    kind; the specification says nothing about another answer there and the
    model stops with [ShapeError]. *)
Definition descend_step (node : Node) : result value :=
  match node with
  | Script commands =>
      cs ← visit_seq (kid node) commands; Ok (VNode (Script cs))
  | Pipeline commands =>
      cs ← visit_seq (kid node) commands; Ok (VNode (Pipeline cs))
  | LogicalExpression op l r =>
      l' ← (v ← kid node l; as_Node "left" v);
      r' ← (v ← kid node r; as_Node "right" v);
      Ok (VNode (LogicalExpression op l' r'))
  | Command c =>
      name ← visit_opt (kid_leaf node ∘ Word) (as_Word "name") (cmd_name c);
      prefix ← visit_opt_seq (kid node) (cmd_prefix c);
      suffix ← visit_opt_seq (kid node) (cmd_suffix c);
      Ok (VNode (Command (mkCommand name prefix suffix)))
  | Function f =>
      name ← name_field node "name" (fn_name f);
      rs ← visit_seq (kid node) (fn_redirections f);
      body ← cl_field node "body" (fn_body f);
      Ok (VNode (Function (mkFunction name rs body)))
  | CompoundList c => descend_CompoundList c
  | Subshell l =>
      l' ← cl_field node "list" l; Ok (VNode (Subshell l'))
  | For name wordlist d =>
      name' ← name_field node "name" name;
      ws ← visit_seq (kid node) wordlist;
      d' ← cl_field node "do" d;
      Ok (VNode (For name' ws d'))
  | Case clause cases =>
      clause' ← word_field node "clause" clause;
      cs ← visit_seq (kid node) cases;
      Ok (VNode (Case clause' cs))
  | CaseItem pattern body =>
      ps ← visit_seq (kid node) pattern;
      body' ← cl_field node "body" body;
      Ok (VNode (CaseItem ps body'))
  | If i =>
      c ← visit_opt (kid_cl node) (as_CompoundList "clause") (if_clause i);
      t ← visit_opt (kid_cl node) (as_CompoundList "then") (if_then i);
      e ← visit_opt (kid_cl node) (as_CompoundList "else") (if_else i);
      Ok (VNode (If (mkIf c t e)))
  | While clause d =>
      clause' ← cl_field node "clause" clause;
      d' ← cl_field node "do" d;
      Ok (VNode (While clause' d'))
  | Until clause d =>
      clause' ← cl_field node "clause" clause;
      d' ← cl_field node "do" d;
      Ok (VNode (Until clause' d'))
  | Redirect op file numberIo =>
      file' ← word_field node "file" file;
      Ok (VNode (Redirect op file' numberIo))
  | Name _ | Word _ | AssignmentWord _ | ArithmeticExpansion _ _
  | CommandExpansion _ _ _ | ParameterExpansion _ _ _ _ => Ok (VNode node)
  end.

End DescendStep.

(** The node types that the specification lists as leaves. *)
Definition is_leaf (t : NodeType) : bool :=
  match t with
  | TName | TWord | TAssignmentWord | TArithmeticExpansion
  | TCommandExpansion | TParameterExpansion => true
  | _ => false
  end.

(** Modelled from the spec: the missing table itself,
    [require("./descend-visitor")(traverseNode)], applied to the user visitor
    that the JavaScript handlers take from their context.  Leaf types have
    no entry. *)
Definition descend_visitor
    (traverseNode : option Node -> value -> VisitorArg -> value -> result value)
    (visitor : VisitorArg) : Visitor :=
  mkVisitor
    (fun t =>
       if is_leaf t then None
       else Some (fun node ctx =>
         let kid parent child :=
           traverseNode (Some parent) (ctx_ast ctx) visitor (VNode child) in
         descend_step kid (fun parent c => kid parent (CompoundList c)) kid node))
    None.

(** ** [traverseNode] and [traverse], with the table in place

    [DescendVisitor] is built from [traverseNode] and [traverseNode] visits
    with [DescendVisitor]; the recursion goes down the tree, one level per
    call, and is written here by recursion on the node. *)
Fixpoint traverseNode_node (visitor : VisitorArg) (ast : value)
    (parent : option Node) (node : Node) {struct node} : result value :=
  let kid p c := traverseNode_node visitor ast (Some p) c in
  let kid_leaf p c := visit (VNode c) (mkContext (Some p) ast) visitor in
  let kid_cl p c :=
    d ← descend_CompoundList kid c;
    visit d (mkContext (Some p) ast) visitor in
  d ← descend_step kid kid_cl kid_leaf node;
  visit d (mkContext parent ast) visitor.

Definition traverseNode (parent : option Node) (ast : value)
    (visitor : VisitorArg) (node : value) : result value :=
  match node with
  | VNode n => traverseNode_node visitor ast parent n
  | _ => visit node (mkContext parent ast) visitor
  end.

Definition traverse (ast : value) (visitor : VisitorArg) : result value :=
  traverseNode None ast visitor ast.

(** ** The code generator ([defSource], [getSourceText], [codegen]) *)

Definition nl : string := String "010"%char EmptyString.

(** [Array.prototype.join]: an [undefined] element is printed as the empty
    string.  An element is the result of reading [cur.source]. *)
Fixpoint join (sep : string) (l : list (option string)) : string :=
  match l with
  | [] => ""
  | [x] => default "" x
  | x :: rest => default "" x +:+ sep +:+ join sep rest
  end.

(** [a && b] on strings inside a template literal: the empty string is
    falsy and is then the value of the expression. *)
Definition and_then (a b : string) : string :=
  if decide (a = "") then "" else b.

(** Reading [node.source] once [codegen] has gone over the tree.  [defSource]
    defines [source] as an accessor property ([get: fn]), so a read runs [fn]
    on the node as it is at that moment; [None] is [undefined], the answer of
    a node whose type has no entry in the table of [codegen]. *)
Fixpoint source (node : Node) : option string :=
  let CompoundList_source (c : CompoundListT Node) : string :=
    join nl (map source (cl_commands c)) in
  let commands_source (sep : string) (o : option (CompoundListT Node))
    : string :=
    match o with
    | Some c => join sep (map source (cl_commands c))
    | None => ""
    end in
  let list_source (o : option (list Node)) : string :=
    match o with
    | Some l => join " " (map source l)
    | None => ""
    end in
  match node with
  | Script commands => Some (join nl (map source commands))
  | Word w => Some (w_text w)
  | AssignmentWord w => Some (w_text w)
  | Name n => Some (n_text n)
  | CompoundList c => Some (CompoundList_source c)
  | Function f =>
      (* node.body.toString() is node.body.source *)
      Some (n_text (fn_name f) +:+ "() {" +:+ nl +:+ "  "
            +:+ CompoundList_source (fn_body f) +:+ nl +:+ "}")
  | Command c =>
      let suffix := list_source (cmd_suffix c) in
      let prefix := list_source (cmd_prefix c) in
      let name :=
        match cmd_name c with
        | Some w => w_text w      (* node.name.source, a [Word] *)
        | None => ""
        end in
      Some (prefix +:+ " " +:+ name +:+ " " +:+ suffix)
  | If i =>
      let _clause := commands_source " " (if_clause i) in
      let _then := commands_source nl (if_then i) in
      let _else := commands_source " " (if_else i) in
      Some ("if " +:+ _clause +:+ nl
            +:+ and_then _then ("then" +:+ nl +:+ _then +:+ nl)
            +:+ and_then _else ("else" +:+ nl +:+ _else +:+ nl)
            +:+ nl +:+ "fi")
  | _ => None
  end.

(** [node.toString = () => node.source] where [defSource] ran; the inherited
    [Object.prototype.toString] elsewhere. *)
Definition toString (node : Node) : string :=
  default "[object Object]" (source node).

(** [defSource(node, fn)] defines the accessor and [toString] on [node] and
    returns [node]: the tree keeps its structure, and what the accessor
    answers from then on is [source] above. *)
Definition defSource (node : Node) : result value := Ok (VNode node).

(** [getSourceText = node => defSource(node, () => node.text)] *)
Definition getSourceText (node : Node) : result value := defSource node.

(** The table that [codegen] hands to [traverse]. *)
Definition codegen_visitor : Visitor :=
  mkVisitor
    (fun t =>
       match t with
       | TScript | TCompoundList | TFunction | TCommand | TIf =>
           Some (fun node _ => defSource node)
       | TWord | TAssignmentWord | TName =>
           Some (fun node _ => getSourceText node)
       | _ => None
       end)
    None.

Definition codegen (ast : value) : result value :=
  traverse ast (Table codegen_visitor).

(** ** The import resolver (class [Context]) *)

(** The file system, as far as [fs.existsSync] and [fs.readFileSync] see it. *)
Inductive entry : Type :=
| File (content : string)
| Directory.

Record Context : Type := mkCtx {
  filename : string;
  ast : Node
}.

(** What the program takes from outside: the file system, the parser of
    bash-parser and the [path] module of Node.js. *)
Record World : Type := mkWorld {
  (* the files and directories, by path *)
  fs : gmap string entry;
  (* [parse(text)]: the [commands] of the [Script] it returns, or the error
     it throws *)
  parse : string -> result (list Node);
  (* [path.resolve(from, to)] *)
  resolve : string -> string -> string;
  (* [path.dirname(p)] *)
  dirname : string -> string;
  (* [path.basename(p, ext)] *)
  basename : string -> string -> string;
  (* [path.extname(p)] *)
  extname : string -> string
}.

Section Resolver.

Variable world : World.

Definition existsSync (p : string) : bool :=
  bool_decide (is_Some (fs world !! p)).

Definition readFileSync (p : string) : result string :=
  match fs world !! p with
  | Some (File content) => Ok content
  | Some Directory => Throw (EISDIR p)
  | None => Throw (ENOENT p)
  end.

(** [new Context(filename)], called without parse options. *)
Definition new_Context (filename : string) : result Context :=
  text ← readFileSync filename;
  commands ← parse world text;
  Ok (mkCtx filename (Script commands)).

Definition as_Word_node (n : Node) : option (WordT Node) :=
  match n with Word w => Some w | _ => None end.

Definition as_Function_node (n : Node) : option (FunctionT Node) :=
  match n with Function f => Some f | _ => None end.

(** [func.name.text = `${mod}::${func.name.text}`] *)
Definition rename (mod_ : string) (func : FunctionT Node) : FunctionT Node :=
  mkFunction (mkName (mod_ +:+ "::" +:+ n_text (fn_name func)))
    (fn_redirections func) (fn_body func).

(** The file that [Import] reads for the argument [arg]. *)
Definition import_file (this : Context) (arg : string) : string :=
  let file := resolve world (dirname world (filename this)) arg in
  if existsSync file then file else file +:+ ".sh".

Definition Import (this : Context) (cmd : CommandT Node)
  : result (list (FunctionT Node)) :=
  suffix ← match cmd_suffix cmd with
           | Some s => Ok s
           | None => Throw (TypeError "cmd.suffix is undefined")
           end;
  let argv := omap as_Word_node suffix in
  arg ← match argv with
        | w :: _ => Ok (w_text w)
        | [] => Throw (TypeError "argv[0] is undefined")
        end;
  let file := import_file this arg in
  text ← readFileSync file;
  commands ← parse world text;
  let funcs := omap as_Function_node commands in
  let mod_ := basename world file (extname world file) in
  Ok (map (rename mod_) funcs).

Definition Context_Command (this : Context) (cmd : CommandT Node)
  : result value :=
  match cmd_name cmd with
  | None => Ok VUndefined
  | Some name =>
      if decide (w_text name = "import")
      then funcs ← Import this cmd; Ok (VArray (map Function funcs))
      else Ok VUndefined
  end.

(** The instance [this] used as a visitor table: of its properties only
    [Command] is named after a node type.  The handler is stored under
    [TCommand], so [visit] applies it to [Command] nodes only. *)
Definition Context_visitor (this : Context) : Visitor :=
  mkVisitor
    (fun t =>
       match t with
       | TCommand =>
           Some (fun node _ =>
                   match node with
                   | Command cmd => Context_Command this cmd
                   | _ => Ok VUndefined
                   end)
       | _ => None
       end)
    None.

Definition process (this : Context) : result value :=
  outAst ← traverse (VNode (ast this)) (Table (Context_visitor this));
  codegen outAst.

(** [console.log(ctx.process().toString())]: the text written to standard
    output, or the exception that ends the run before anything is written. *)
Definition main (file : string) : result string :=
  ctx ← new_Context file;
  out ← process ctx;
  match out with
  | VNode n => Ok (toString n +:+ nl)
  | VArray ns => Ok (join "," (map (Some ∘ toString) ns) +:+ nl)
  | VNull | VUndefined => Throw (TypeError "toString of null")
  end.

End Resolver.

(** ** Notions used in the statements *)

(** A value that is neither [null] nor [undefined]. *)
Definition present (node : value) : Prop :=
  match node with
  | VNode _ | VArray _ => True
  | VNull | VUndefined => False
  end.

(** No rule of the visitor fires on any node: every node comes back as it
    went in.  The empty table is the first example. *)
Definition inert (visitor : VisitorArg) : Prop :=
  forall (n : Node) (ctx : context), visit (VNode n) ctx visitor = Ok (VNode n).

(** [cmd] is an [import] command and [w] is the first element of type [Word]
    in its suffix. *)
Definition import_of (cmd : CommandT Node) (w : WordT Node) : Prop :=
  exists name pre post,
    cmd_name cmd = Some name /\ w_text name = "import"
    /\ cmd_suffix cmd = Some (pre ++ Word w :: post)%list
    /\ Forall (fun n => type n <> TWord) pre.

(** The elements that [bash-ast.d.ts] allows in the [prefix] and the [suffix]
    of a command: [AssignmentWord | Redirect] and [Word | Redirect]. *)
Definition is_argument (n : Node) : Prop :=
  match n with
  | Word _ | AssignmentWord _ | Redirect _ _ _ => True
  | _ => False
  end.

Definition arguments_typed (cmd : CommandT Node) : Prop :=
  Forall is_argument (default [] (cmd_prefix cmd))
  /\ Forall is_argument (default [] (cmd_suffix cmd)).

(** ** A small world for the examples

    Stand-ins for the parser and for [path] on the handful of inputs the
    examples use: the parser knows four texts, paths are POSIX paths
    without [.] or [..] segments. *)

Definition echo_cmd : CommandT Node :=
  mkCommand (Some (mkWord "echo" [])) None (Some [Word (mkWord "hi" [])]).

Definition echo_hi : Node := Command echo_cmd.

Definition import_cmd (arg : string) : CommandT Node :=
  mkCommand (Some (mkWord "import" [])) None (Some [Word (mkWord arg [])]).

Definition greet : FunctionT Node :=
  mkFunction (mkName "greet") [] (mkCompoundList [echo_hi] []).

Definition demo_parse (text : string) : result (list Node) :=
  if decide (text = "")
  then Ok []
  else if decide (text = "import util; echo hi")
  then Ok [Command (import_cmd "util"); echo_hi]
  else if decide (text = "function greet { echo hi; }")
  then Ok [Function greet]
  else if decide (text = "import does-not-exist")
  then Ok [Command (import_cmd "does-not-exist")]
  else Throw (SyntaxError text).

(** [split_last sep s]: the parts of [s] before and after the last [sep]. *)
Fixpoint split_last (sep : ascii) (s : string) : option (string * string) :=
  match s with
  | EmptyString => None
  | String c s' =>
      match split_last sep s' with
      | Some (a, b) => Some (String c a, b)
      | None => if decide (c = sep) then Some (EmptyString, s') else None
      end
  end.

Definition demo_dirname (p : string) : string :=
  match split_last "/"%char p with
  | Some (d, _) => d
  | None => "."
  end.

Definition demo_extname (p : string) : string :=
  let base := match split_last "/"%char p with
              | Some (_, b) => b
              | None => p
              end in
  match split_last "."%char base with
  | Some (a, e) => if decide (a = "") then "" else "." +:+ e
  | None => ""
  end.

Definition demo_basename (p ext : string) : string :=
  let base := match split_last "/"%char p with
              | Some (_, b) => b
              | None => p
              end in
  let n := (String.length base - String.length ext)%nat in
  if decide (String.substring n (String.length ext) base = ext)
  then String.substring 0 n base
  else base.

Definition demo_world : World :=
  mkWorld
    {[ "/w/main.sh" := File "import util; echo hi";
       "/w/util.sh" := File "function greet { echo hi; }";
       "/w/bad.sh" := File "import does-not-exist";
       "/w/empty.sh" := File "" ]}
    demo_parse
    (fun from to => from +:+ "/" +:+ to)
    demo_dirname demo_basename demo_extname.

(** ** The generated text, in the words of the statements *)

(** The sources of the commands of a branch, joined by [sep]; the empty
    string for an absent branch. *)
Definition branch_source (sep : string) (o : option (CompoundListT Node))
  : string :=
  match o with
  | Some c => join sep (map source (cl_commands c))
  | None => ""
  end.

(** The text of an [If] node as the specification words it: a [then] block
    whenever a then-branch exists, an [else] block whenever an else-branch
    exists. *)
Definition If_source_by_presence (i : IfT Node) : string :=
  "if " +:+ branch_source " " (if_clause i) +:+ nl
  +:+ match if_then i with
      | Some _ => "then" +:+ nl +:+ branch_source nl (if_then i) +:+ nl
      | None => ""
      end
  +:+ match if_else i with
      | Some _ => "else" +:+ nl +:+ branch_source " " (if_else i) +:+ nl
      | None => ""
      end
  +:+ nl +:+ "fi".

(** ** Reads and mutations of a node

    The tree is made of mutable objects.  A node instance is followed here
    through a sequence of actions: reading its [source], or changing it or
    one of its descendants in place (as [Import] does with
    [func.name.text = ...]).  [reads] lists what the successive reads
    return: the accessor installed by [defSource] calls [fn] at every read
    and stores nothing. *)

Inductive action : Type :=
| ReadSource
| Mutate (change : Node -> Node).

Fixpoint reads (node : Node) (actions : list action) : list (option string) :=
  match actions with
  | [] => []
  | ReadSource :: rest => source node :: reads node rest
  | Mutate change :: rest => reads (change node) rest
  end.

(** The same sequence under the memoization that the specification words:
    the first read computes the text and keeps it, later reads return what
    was kept. *)
Fixpoint reads_memoized (cache : option (option string)) (node : Node)
    (actions : list action) : list (option string) :=
  match actions with
  | [] => []
  | ReadSource :: rest =>
      let s := default (source node) cache in
      s :: reads_memoized (Some s) node rest
  | Mutate change :: rest => reads_memoized cache (change node) rest
  end.

(** [node.name.text = t] on a command or a function. *)
Definition set_name_text (t : string) (node : Node) : Node :=
  match node with
  | Command c =>
      Command (mkCommand
                 ((fun w => mkWord t (w_expansion w)) <$> cmd_name c)
                 (cmd_prefix c) (cmd_suffix c))
  | Function f =>
      Function (mkFunction (mkName t) (fn_redirections f) (fn_body f))
  | _ => node
  end.

(** [node.text = t] on a leaf that carries a text. *)
Definition set_text (t : string) (node : Node) : Node :=
  match node with
  | Word w => Word (mkWord t (w_expansion w))
  | AssignmentWord w => AssignmentWord (mkWord t (w_expansion w))
  | Name _ => Name (mkName t)
  | _ => node
  end.

(** ** Notions used in the further properties *)

(** [cmd.name.text === "import"], for a command that has a name. *)
Definition is_import (cmd : CommandT Node) : bool :=
  match cmd_name cmd with
  | Some name => bool_decide (w_text name = "import")
  | None => false
  end.

(** No command named [import] occurs in the tree, at any depth that the
    traversal goes to (expansions inside words are not gone into). *)
Fixpoint import_free (n : Node) : bool :=
  let all := forallb import_free in
  let cl (c : CompoundListT Node) :=
    all (cl_commands c) && all (cl_redirections c) in
  let ocl (o : option (CompoundListT Node)) :=
    match o with Some c => cl c | None => true end in
  let oseq (o : option (list Node)) :=
    match o with Some l => all l | None => true end in
  match n with
  | Script commands | Pipeline commands => all commands
  | LogicalExpression _ l r => import_free l && import_free r
  | Command c =>
      negb (is_import c) && oseq (cmd_prefix c) && oseq (cmd_suffix c)
  | Function f => all (fn_redirections f) && cl (fn_body f)
  | CompoundList c | Subshell c => cl c
  | For _ wordlist d => all wordlist && cl d
  | Case _ cases => all cases
  | CaseItem pattern body => all pattern && cl body
  | If i => ocl (if_clause i) && ocl (if_then i) && ocl (if_else i)
  | While c d | Until c d => cl c && cl d
  | Redirect _ _ _ | Name _ | Word _ | AssignmentWord _
  | ArithmeticExpansion _ _ | CommandExpansion _ _ _
  | ParameterExpansion _ _ _ _ => true
  end.

(** What a top-level command of the root script becomes: itself when it is
    free of imports; the functions that [Import] returns when it is an
    [import] command with words and redirections as arguments. *)
Definition resolved_as (world : World) (this : Context) (c : Node)
    (part : list Node) : Prop :=
  (import_free c = true /\ part = [c])
  \/ (exists cmd funcs,
        c = Command cmd /\ is_import cmd = true /\ arguments_typed cmd
        /\ Import world this cmd = Ok funcs
        /\ part = map Function funcs).

(** More terms for the examples: an [import] without arguments, one with a
    second word, and the root script of [/w/main.sh]. *)
Definition bare_import : CommandT Node :=
  mkCommand (Some (mkWord "import" [])) None None.

Definition import_two_words : CommandT Node :=
  mkCommand (Some (mkWord "import" [])) None
    (Some [Word (mkWord "util" []); Word (mkWord "extra" [])]).

Definition demo_main : Context :=
  mkCtx "/w/main.sh" (Script [Command (import_cmd "util"); echo_hi]).

(** * Properties *)

(** ** The error monad *)

Lemma bind_Ok_r {A} (m : result A) : (m ≫= Ok) = m.
Proof. destruct m; reflexivity. Qed.

(** ** [visit] *)

Lemma visit_Many node ctx vs :
  visit node ctx (Many vs)
  = match node with
    | VNull | VUndefined => Ok VNull
    | _ => reduce_visit ctx vs node
    end.
Proof.
  destruct node; try reflexivity.
  - cbn. generalize (VNode n). induction vs as [|v vs IH]; intros x; cbn.
    + reflexivity.
    + destruct (visit x ctx v); cbn; [apply IH | reflexivity].
  - cbn. generalize (VArray ns). induction vs as [|v vs IH]; intros x; cbn.
    + reflexivity.
    + destruct (visit x ctx v); cbn; [apply IH | reflexivity].
Qed.

Lemma visit_absent ctx visitor :
  visit VNull ctx visitor = Ok VNull /\ visit VUndefined ctx visitor = Ok VNull.
Proof. destruct visitor; split; reflexivity. Qed.

Lemma visit_Table node ctx t :
  present node ->
  visit node ctx (Table t)
  = (match resolve_handler t node with
     | Some h => h ctx
     | None => Ok node
     end ≫= fun out => Ok match out with VUndefined => node | _ => out end).
Proof. destruct node; cbn [present]; try tauto; reflexivity. Qed.

(** A chain of two visitors runs the first, then the second on what the first
    returned. *)
Lemma visit_chain2 node ctx v1 v2 :
  visit node ctx (Many [v1; v2])
  = (visit node ctx v1 ≫= fun d => visit d ctx v2).
Proof.
  rewrite visit_Many. destruct node; cbn [reduce_visit].
  - rewrite (proj2 (visit_absent ctx v1)). cbn.
    symmetry. apply visit_absent.
  - rewrite (proj1 (visit_absent ctx v1)). cbn.
    symmetry. apply visit_absent.
  - destruct (visit (VNode n) ctx v1); cbn; [apply bind_Ok_r | reflexivity].
  - destruct (visit (VArray ns) ctx v1); cbn; [apply bind_Ok_r | reflexivity].
Qed.

(** C5, as amended: an absent node, [null] or [undefined], is answered with
    [null] whatever the visitor is; [undefined] does not come back as
    [undefined]. *)
Theorem visit_absent_is_null (ctx : context) (visitor : VisitorArg) :
  visit VNull ctx visitor = Ok VNull
  /\ visit VUndefined ctx visitor = Ok VNull
  /\ visit VUndefined ctx visitor <> Ok VUndefined.
Proof.
  destruct (visit_absent ctx visitor) as [H1 H2].
  rewrite H1, H2. repeat split; discriminate.
Qed.

(** C5 as stated fails: visiting [undefined] with the empty table gives
    [null], not [undefined]. *)
Lemma visit_undefined_not_unchanged :
  visit VUndefined (mkContext None VUndefined) (Table empty_visitor)
  <> Ok VUndefined.
Proof. cbn. discriminate. Qed.

(** C4: with a single table and a node that is present, a handler that
    returns [undefined] leaves the node as it is, any other value it returns
    (including [null], a node, an array) is the result, and without a handler
    for the type and without [defaultMethod] the node passes through. *)
Theorem visit_handler_result (node : value) (ctx : context) (t : Visitor) :
  present node ->
  (forall h, resolve_handler t node = Some h -> h ctx = Ok VUndefined ->
     visit node ctx (Table t) = Ok node)
  /\ (forall h out, resolve_handler t node = Some h -> h ctx = Ok out ->
        out <> VUndefined -> visit node ctx (Table t) = Ok out)
  /\ (forall n, node = VNode n -> methods t (type n) = None ->
        defaultMethod t = None -> visit node ctx (Table t) = Ok node)
  /\ (forall ns, node = VArray ns ->
        defaultMethod t = None -> visit node ctx (Table t) = Ok node).
Proof.
  intros Hp. rewrite (visit_Table _ _ _ Hp). repeat split.
  - intros h -> ->. reflexivity.
  - intros h out -> -> Hout. cbn. destruct out; congruence.
  - intros n -> Hm Hd. cbn. rewrite Hm, Hd. reflexivity.
  - intros ns -> Hd. cbn. rewrite Hd. reflexivity.
Qed.

Lemma visit_handler_result_witness :
  present (VNode (Name (mkName "f")))
  /\ visit (VNode (Name (mkName "f"))) (mkContext None VNull)
       (Table (mkVisitor (fun _ => Some (fun _ _ => Ok VNull)) None))
     = Ok VNull.
Proof.
  split; [exact I|].
  refine (proj1 (proj2 (visit_handler_result (VNode (Name (mkName "f")))
            (mkContext None VNull)
            (mkVisitor (fun _ => Some (fun _ _ => Ok VNull)) None) I))
          _ VNull eq_refl eq_refl _).
  discriminate.
Defined.

(** C3: [traverseNode] runs the descend table first and the user visitor on
    what the descend table returned.  When the descend step answers with a
    node [d] and the user table has a handler [h] for the type of [d], the
    result is that of [h d]: the handler is applied to the node as rewritten
    by the descend step, whatever the table of the descend step is. *)
Theorem traverseNode_descend_then_visit
    (DescendVisitor : VisitorArg -> Visitor) (parent : option Node)
    (ast : value) (visitor : VisitorArg) (node : value) :
  let ctx := mkContext parent ast in
  traverseNode_with DescendVisitor parent ast visitor node
  = (visit node ctx (Table (DescendVisitor visitor)) ≫= fun d =>
     visit d ctx visitor)
  /\ (forall d user h,
        visit node ctx (Table (DescendVisitor visitor)) = Ok (VNode d) ->
        visitor = Table user ->
        methods user (type d) = Some h ->
        traverseNode_with DescendVisitor parent ast visitor node
        = (h d ctx ≫= fun out =>
           Ok match out with VUndefined => VNode d | _ => out end)).
Proof.
  intros ctx. unfold traverseNode_with. fold ctx.
  rewrite visit_chain2. split; [reflexivity|].
  intros d user h -> -> Hh. cbn. rewrite Hh. reflexivity.
Qed.

(** ** The descend step with an inert visitor *)

Lemma visit_seq_id (kid : Node -> result value) (l : list Node) :
  list_all Node (fun c => kid c = Ok (VNode c)) l -> visit_seq kid l = Ok l.
Proof.
  induction 1 as [|c Hc l _ IH]; cbn; [reflexivity|].
  cbn in IH. rewrite Hc, IH. reflexivity.
Qed.

Section Inert.

Variable visitor : VisitorArg.
Hypothesis visitor_inert : inert visitor.
Variable ast : value.

Let P (n : Node) : Prop :=
  forall (ast : value) (parent : option Node),
    traverseNode_node visitor ast parent n = Ok (VNode n).

Let kid (p c : Node) : result value :=
  traverseNode_node visitor ast (Some p) c.
Let kid_leaf (p c : Node) : result value :=
  visit (VNode c) (mkContext (Some p) ast) visitor.
Let kid_cl (p : Node) (c : CompoundListT Node) : result value :=
  descend_CompoundList kid c ≫= fun d =>
  visit d (mkContext (Some p) ast) visitor.

Lemma seq_inert p l : list_all Node P l -> visit_seq (kid p) l = Ok l.
Proof.
  intros H. apply visit_seq_id.
  induction H as [|c Hc l _ IH]; constructor; [apply Hc | exact IH].
Qed.

Lemma descend_CompoundList_inert c :
  CompoundListT_all Node P c ->
  descend_CompoundList kid c = Ok (VNode (CompoundList c)).
Proof.
  intros [cs rs Hcs Hrs]. unfold descend_CompoundList. cbn.
  rewrite !seq_inert by assumption. reflexivity.
Qed.

Lemma kid_cl_inert p c :
  CompoundListT_all Node P c -> kid_cl p c = Ok (VNode (CompoundList c)).
Proof.
  intros H. unfold kid_cl. rewrite descend_CompoundList_inert by assumption.
  cbn. apply visitor_inert.
Qed.

Lemma cl_field_inert p field c :
  CompoundListT_all Node P c -> cl_field kid_cl p field c = Ok c.
Proof. intros H. unfold cl_field. rewrite kid_cl_inert by assumption. reflexivity. Qed.

Lemma word_field_inert p field w : word_field kid_leaf p field w = Ok w.
Proof. unfold word_field, kid_leaf. rewrite visitor_inert. reflexivity. Qed.

Lemma name_field_inert p field n : name_field kid_leaf p field n = Ok n.
Proof. unfold name_field, kid_leaf. rewrite visitor_inert. reflexivity. Qed.

Lemma opt_cl_inert p field o :
  option_all _ (CompoundListT_all Node P) o ->
  visit_opt (kid_cl p) (as_CompoundList field) o = Ok o.
Proof.
  intros [c H|]; cbn; [|reflexivity].
  rewrite kid_cl_inert by assumption. reflexivity.
Qed.

Lemma opt_seq_inert p o :
  option_all _ (list_all Node P) o -> visit_opt_seq (kid p) o = Ok o.
Proof.
  intros [l H|]; cbn; [|reflexivity].
  rewrite seq_inert by assumption. reflexivity.
Qed.

Lemma opt_word_inert p field (o : option (WordT Node)) :
  visit_opt (kid_leaf p ∘ Word) (as_Word field) o = Ok o.
Proof.
  destruct o as [w|]; cbn; [|reflexivity].
  unfold kid_leaf. rewrite visitor_inert. reflexivity.
Qed.

End Inert.

Lemma traverseNode_node_eq visitor ast parent node :
  traverseNode_node visitor ast parent node
  = (descend_step
       (fun p c => traverseNode_node visitor ast (Some p) c)
       (fun p c =>
          descend_CompoundList
            (fun p c => traverseNode_node visitor ast (Some p) c) c
          ≫= fun d => visit d (mkContext (Some p) ast) visitor)
       (fun p c => visit (VNode c) (mkContext (Some p) ast) visitor)
       node
     ≫= fun d => visit d (mkContext parent ast) visitor).
Proof. destruct node; reflexivity. Qed.

Ltac inert_step Hv :=
  first
    [ rewrite (seq_inert _ _) by assumption
    | rewrite (opt_seq_inert _ _) by assumption
    | rewrite (cl_field_inert _ Hv) by assumption
    | rewrite (opt_cl_inert _ Hv) by assumption
    | rewrite (word_field_inert _ Hv)
    | rewrite (name_field_inert _ Hv)
    | rewrite (opt_word_inert _ Hv) ];
  cbn [mbind result_bind].

Lemma traverseNode_node_inert visitor :
  inert visitor ->
  forall n ast parent, traverseNode_node visitor ast parent n = Ok (VNode n).
Proof.
  intros Hv. induction n; intros ast parent; rewrite traverseNode_node_eq;
    repeat match goal with
           | H : CommandT_all _ _ _ |- _ => destruct H
           | H : FunctionT_all _ _ _ |- _ => destruct H
           | H : IfT_all _ _ _ |- _ => destruct H
           end;
    cbn [descend_step cmd_name cmd_prefix cmd_suffix fn_name fn_redirections
         fn_body if_clause if_then if_else];
    try rewrite IHn1; try rewrite IHn2; cbn [mbind result_bind as_Node];
    repeat inert_step Hv;
    try (rewrite (descend_CompoundList_inert visitor) by assumption;
         cbn [mbind result_bind]);
    apply Hv.
Qed.

(** The descend step answers with a node. *)
Lemma descend_step_node kid kid_cl kid_leaf node v :
  descend_step kid kid_cl kid_leaf node = Ok v -> exists d, v = VNode d.
Proof.
  destruct node; cbn;
    repeat match goal with
           | |- context [?m ≫= _] =>
               match m with
               | _ ≫= _ => fail 1
               | _ => destruct m; cbn; try discriminate
               end
           end;
    try (intros [= <-]; eexists; reflexivity).
  unfold descend_CompoundList.
  repeat match goal with
         | |- context [?m ≫= _] =>
             match m with
             | _ ≫= _ => fail 1
             | _ => destruct m; cbn; try discriminate
             end
         end.
  intros [= <-]; eexists; reflexivity.
Qed.

(** The knot: the recursive definition satisfies the equation of the source,
    [traverseNode = visit(node, [parent, ast, visitor],
                          [DescendVisitor, visitor])]
    with [DescendVisitor] built from [traverseNode] itself. *)
Lemma traverseNode_knot parent ast visitor node :
  traverseNode parent ast visitor node
  = traverseNode_with (descend_visitor traverseNode) parent ast visitor node.
Proof.
  unfold traverseNode_with. rewrite visit_chain2.
  destruct node as [| |n|ns].
  - cbn [traverseNode]. rewrite !(proj2 (visit_absent _ _)). cbn.
    symmetry. apply visit_absent.
  - cbn [traverseNode]. rewrite !(proj1 (visit_absent _ _)). cbn.
    symmetry. apply visit_absent.
  - cbn [traverseNode]. rewrite traverseNode_node_eq.
    rewrite visit_Table by exact I.
    destruct n; cbn -[descend_step]; try reflexivity.
    all: match goal with
         | |- ?a ≫= _ = (?b ≫= _) ≫= _ =>
             change b with a; destruct a as [v|] eqn:E; cbn; [|reflexivity];
             destruct (descend_step_node _ _ _ _ _ E) as [d ->]; reflexivity
         end.
  - reflexivity.
Qed.

Lemma empty_visitor_inert : inert (Table empty_visitor).
Proof. intros n ctx. reflexivity. Qed.

Lemma codegen_visitor_inert : inert (Table codegen_visitor).
Proof.
  intros n ctx. destruct n; reflexivity.
Qed.

Lemma traverse_inert visitor (T : Node) :
  inert visitor -> traverse (VNode T) visitor = Ok (VNode T).
Proof. intros Hv. apply traverseNode_node_inert, Hv. Qed.

(** C6: with the empty table, [traverse] returns the tree it was given. *)
Theorem traverse_empty_visitor_identity (T : Node) :
  traverse (VNode T) (Table empty_visitor) = Ok (VNode T).
Proof. apply traverse_inert, empty_visitor_inert. Qed.

(** [codegen] returns the tree it was given: its handlers return the node
    they receive. *)
Lemma codegen_structure (T : Node) : codegen (VNode T) = Ok (VNode T).
Proof. apply traverse_inert, codegen_visitor_inert. Qed.

(** ** The import resolver *)

Section ResolverFacts.

Variable world : World.

Lemma visit_Context_Command this cmd ctx :
  visit (VNode (Command cmd)) ctx (Table (Context_visitor world this))
  = (Context_Command world this cmd ≫= fun out =>
     Ok match out with VUndefined => VNode (Command cmd) | _ => out end).
Proof. reflexivity. Qed.

Lemma omap_Word_none (pre : list Node) :
  Forall (fun n => type n <> TWord) pre -> omap as_Word_node pre = [].
Proof.
  induction 1 as [|n pre Hn _ IH]; [reflexivity|].
  destruct n; cbn in *; try assumption. congruence.
Qed.

Lemma first_Word cmd w :
  import_of cmd w ->
  exists suffix rest,
    cmd_suffix cmd = Some suffix /\ omap as_Word_node suffix = w :: rest.
Proof.
  intros (name & pre & post & _ & _ & Hs & Hpre).
  exists (pre ++ Word w :: post)%list, (omap as_Word_node post).
  split; [assumption|].
  rewrite omap_app, (omap_Word_none _ Hpre). reflexivity.
Qed.

Lemma filter_Function (commands : list Node) :
  filter (fun n => type n = TFunction) commands
  = map Function (omap as_Function_node commands).
Proof.
  induction commands as [|n l IH]; [reflexivity|].
  destruct n; cbn; rewrite ?filter_cons; cbn;
    try (destruct (decide _) as [E|E]; [discriminate E|]); try assumption.
  rewrite decide_True by reflexivity. cbn. f_equal. assumption.
Qed.

(** What [Import] does once the first [Word] of the suffix is known. *)
Lemma Import_eq this cmd w :
  import_of cmd w ->
  Import world this cmd
  = (readFileSync world (import_file world this (w_text w)) ≫= fun text =>
     parse world text ≫= fun commands =>
     let file := import_file world this (w_text w) in
     Ok (map (rename (basename world file (extname world file)))
           (omap as_Function_node commands))).
Proof.
  intros H. destruct (first_Word _ _ H) as (suffix & rest & Hs & Hw).
  unfold Import. rewrite Hs. cbn. rewrite Hw. reflexivity.
Qed.

Lemma Context_Command_import this cmd w :
  import_of cmd w ->
  Context_Command world this cmd
  = (Import world this cmd ≫= fun funcs => Ok (VArray (map Function funcs))).
Proof.
  intros (name & pre & post & Hn & Ht & _).
  unfold Context_Command. rewrite Hn, Ht. reflexivity.
Qed.

End ResolverFacts.

Section ResolverTheorems.

Variable world : World.

(** C1: for an [import] command whose first [Word] argument is [w], [Import]
    reads the file resolved from [w], keeps exactly the top-level nodes of
    type [Function] of its commands, in order, renames each to
    [<module>::<name>] with the module taken from the file's base name
    without its extension, and this array is what [visit] returns in place of
    the command. *)
Theorem Import_returns_renamed_functions
    (this : Context) (cmd : CommandT Node) (w : WordT Node)
    (text : string) (commands : list Node) (ctx : context) :
  import_of cmd w ->
  let file := import_file world this (w_text w) in
  let mod_ := basename world file (extname world file) in
  readFileSync world file = Ok text ->
  parse world text = Ok commands ->
  exists originals funcs : list (FunctionT Node),
    filter (fun n => type n = TFunction) commands = map Function originals
    /\ Forall2 (fun o r =>
                  n_text (fn_name r) = mod_ +:+ "::" +:+ n_text (fn_name o)
                  /\ fn_redirections r = fn_redirections o
                  /\ fn_body r = fn_body o) originals funcs
    /\ Import world this cmd = Ok funcs
    /\ visit (VNode (Command cmd)) ctx (Table (Context_visitor world this))
       = Ok (VArray (map Function funcs)).
Proof.
  intros Hcmd file mod_ Hread Hparse.
  exists (omap as_Function_node commands),
         (map (rename mod_) (omap as_Function_node commands)).
  assert (HI : Import world this cmd
               = Ok (map (rename mod_) (omap as_Function_node commands))).
  { rewrite (Import_eq _ _ _ _ Hcmd). fold file. rewrite Hread. cbn.
    rewrite Hparse. reflexivity. }
  split; [apply filter_Function|].
  split.
  { clear HI. generalize (omap as_Function_node commands).
    intros l; induction l as [|f l IH]; constructor.
    - repeat split.
    - exact IH. }
  split; [exact HI|].
  rewrite visit_Context_Command, (Context_Command_import _ _ _ _ Hcmd), HI.
  reflexivity.
Qed.

(** C10: a command without a name, or named otherwise than [import], gets
    [undefined] from the [Command] method, without an exception, and [visit]
    keeps the node. *)
Theorem Command_without_import_kept
    (this : Context) (cmd : CommandT Node) (ctx : context) :
  cmd_name cmd = None
  \/ (exists name, cmd_name cmd = Some name /\ w_text name <> "import") ->
  Context_Command world this cmd = Ok VUndefined
  /\ visit (VNode (Command cmd)) ctx (Table (Context_visitor world this))
     = Ok (VNode (Command cmd)).
Proof.
  intros H.
  assert (HC : Context_Command world this cmd = Ok VUndefined).
  { unfold Context_Command.
    destruct H as [-> | (name & -> & Hne)]; [reflexivity|].
    rewrite decide_False by assumption. reflexivity. }
  split; [exact HC|].
  rewrite visit_Context_Command, HC. reflexivity.
Qed.

End ResolverTheorems.

Lemma import_of_import_cmd arg :
  import_of (import_cmd arg) (mkWord arg []).
Proof.
  exists (mkWord "import" []), [], []. repeat split. constructor.
Qed.

Lemma Import_returns_renamed_functions_witness :
  import_of (import_cmd "util") (mkWord "util" [])
  /\ readFileSync demo_world "/w/util.sh" = Ok "function greet { echo hi; }"
  /\ parse demo_world "function greet { echo hi; }" = Ok [Function greet]
  /\ exists originals funcs : list (FunctionT Node),
       filter (fun n => type n = TFunction) [Function greet]
       = map Function originals
       /\ Forall2 (fun o r =>
                     n_text (fn_name r) = "util" +:+ "::" +:+ n_text (fn_name o)
                     /\ fn_redirections r = fn_redirections o
                     /\ fn_body r = fn_body o) originals funcs
       /\ Import demo_world (mkCtx "/w/main.sh" (Script [])) (import_cmd "util")
          = Ok funcs
       /\ visit (VNode (Command (import_cmd "util"))) (mkContext None VNull)
            (Table (Context_visitor demo_world
                      (mkCtx "/w/main.sh" (Script []))))
          = Ok (VArray (map Function funcs)).
Proof.
  split; [apply import_of_import_cmd|].
  split; [reflexivity|]. split; [reflexivity|].
  exact (Import_returns_renamed_functions demo_world
           (mkCtx "/w/main.sh" (Script [])) (import_cmd "util")
           (mkWord "util" []) "function greet { echo hi; }" [Function greet]
           (mkContext None VNull) (import_of_import_cmd "util")
           eq_refl eq_refl).
Defined.

Lemma Command_without_import_kept_witness :
  (cmd_name echo_cmd = None
   \/ exists name, cmd_name echo_cmd = Some name /\ w_text name <> "import")
  /\ Context_Command demo_world (mkCtx "/w/main.sh" (Script [])) echo_cmd
     = Ok VUndefined
  /\ visit (VNode (Command echo_cmd)) (mkContext None VNull)
       (Table (Context_visitor demo_world (mkCtx "/w/main.sh" (Script []))))
     = Ok (VNode (Command echo_cmd)).
Proof.
  assert (H : cmd_name echo_cmd = None
              \/ exists name,
                   cmd_name echo_cmd = Some name /\ w_text name <> "import").
  { right. exists (mkWord "echo" []). split; [reflexivity | discriminate]. }
  split; [exact H|].
  exact (Command_without_import_kept demo_world
           (mkCtx "/w/main.sh" (Script [])) echo_cmd
           (mkContext None VNull) H).
Defined.

(** ** A run that meets an import without a target *)

Lemma visit_seq_Forall_id (kid : Node -> result value) (l : list Node) :
  Forall (fun c => kid c = Ok (VNode c)) l -> visit_seq kid l = Ok l.
Proof.
  induction 1 as [|c l Hc _ IH]; cbn; [reflexivity|].
  cbn in IH. rewrite Hc, IH. reflexivity.
Qed.

Lemma visit_seq_throw (kid : Node -> result value) pre pre' c post e :
  visit_seq kid pre = Ok pre' ->
  kid c = Throw e ->
  visit_seq kid (pre ++ c :: post) = Throw e.
Proof.
  revert pre'. induction pre as [|x pre IH]; intros pre' Hpre Hc; cbn.
  - rewrite Hc. reflexivity.
  - cbn in Hpre. destruct (kid x) as [r|e']; cbn in *; [|discriminate].
    destruct (visit_seq kid pre) as [rest|e'] eqn:E; cbn in *; [|discriminate].
    fold (visit_seq kid (pre ++ c :: post)).
    rewrite (IH rest eq_refl Hc). reflexivity.
Qed.

Section MissingTarget.

Variable world : World.
Variable this : Context.

Let V : VisitorArg := Table (Context_visitor world this).

(** The resolver has a rule for commands only: a word or a redirection goes
    through the traversal as it is. *)
Lemma argument_kept n ast parent :
  is_argument n -> traverseNode_node V ast parent n = Ok (VNode n).
Proof. destruct n; cbn; try tauto; reflexivity. Qed.

Lemma arguments_kept l ast parent :
  Forall is_argument l ->
  visit_seq (traverseNode_node V ast parent) l = Ok l.
Proof.
  intros H. apply visit_seq_Forall_id.
  eapply Forall_impl; [exact H|]. intros n Hn. apply argument_kept, Hn.
Qed.

(** On a command typed as in [bash-ast.d.ts] the descend step changes
    nothing, and the traversal comes down to the [Command] method. *)
Lemma traverse_Command cmd ast parent :
  arguments_typed cmd ->
  traverseNode_node V ast parent (Command cmd)
  = visit (VNode (Command cmd)) (mkContext parent ast) V.
Proof.
  intros [Hp Hs]. rewrite traverseNode_node_eq.
  destruct cmd as [name prefix suffix]. cbn [descend_step cmd_name cmd_prefix
    cmd_suffix] in *.
  assert (Hn : visit_opt
                 ((fun c => visit (VNode c)
                              (mkContext (Some (Command (mkCommand name prefix
                                 suffix))) ast) V) ∘ Word)
                 (as_Word "name") name = Ok name).
  { destruct name; reflexivity. }
  rewrite Hn. cbn [mbind result_bind].
  assert (Hseq : forall o : option (list Node),
            Forall is_argument (default [] o) ->
            visit_opt_seq
              (fun c => traverseNode_node V ast
                          (Some (Command (mkCommand name prefix suffix))) c) o
            = Ok o).
  { intros [l|] Hl; cbn; [|reflexivity].
    fold (visit_seq (traverseNode_node V ast
                       (Some (Command (mkCommand name prefix suffix)))) l).
    rewrite (arguments_kept l _ _ Hl). reflexivity. }
  rewrite (Hseq prefix Hp). cbn [mbind result_bind].
  rewrite (Hseq suffix Hs). reflexivity.
Qed.

End MissingTarget.

Section ImportResolution.

Variable world : World.

Lemma import_file_order this arg :
  let literal := resolve world (dirname world (filename this)) arg in
  (is_Some (fs world !! literal) -> import_file world this arg = literal)
  /\ (fs world !! literal = None ->
      import_file world this arg = literal +:+ ".sh").
Proof.
  intros literal. unfold import_file, existsSync. fold literal. split.
  - intros H. rewrite bool_decide_eq_true_2 by assumption. reflexivity.
  - intros H. rewrite bool_decide_eq_false_2; [reflexivity|].
    rewrite H. intros [x Hx]. discriminate.
Qed.

Lemma Import_missing this cmd w :
  import_of cmd w ->
  let literal := resolve world (dirname world (filename this)) (w_text w) in
  fs world !! literal = None ->
  fs world !! (literal +:+ ".sh") = None ->
  Import world this cmd = Throw (ENOENT (literal +:+ ".sh")).
Proof.
  intros Hcmd literal H1 H2. rewrite (Import_eq _ _ _ _ Hcmd).
  rewrite (proj2 (import_file_order this (w_text w)) H1). fold literal.
  unfold readFileSync. rewrite H2. reflexivity.
Qed.

(** The run of [main] on a file whose script has, among its top-level
    commands, a command on which the resolver throws. *)
Lemma main_throws this pre pre' cmd post e :
  new_Context world (filename this) = Ok this ->
  ast this = Script (pre ++ Command cmd :: post) ->
  visit_seq (traverseNode_node (Table (Context_visitor world this))
               (VNode (ast this)) (Some (ast this))) pre
  = Ok pre' ->
  arguments_typed cmd ->
  Context_Command world this cmd = Throw e ->
  main world (filename this) = Throw e.
Proof.
  intros Hnew Hast Hpre Htyped Hcmd.
  unfold main. rewrite Hnew. cbn [mbind result_bind].
  set (V := Table (Context_visitor world this)) in *.
  assert (Ht : traverse (VNode (ast this)) V = Throw e).
  { unfold traverse, traverseNode. rewrite traverseNode_node_eq.
    rewrite Hast in *. cbn [descend_step].
    rewrite (visit_seq_throw _ pre pre' (Command cmd) post e).
    - reflexivity.
    - exact Hpre.
    - unfold V. rewrite traverse_Command by assumption.
      rewrite visit_Context_Command, Hcmd. reflexivity. }
  unfold process. fold V. rewrite Ht. reflexivity.
Qed.

(** C2: the path resolved from the argument is tried first and, when nothing
    exists there, the same path with [.sh] appended; when nothing exists
    there either, [Import] throws and returns nothing, [visit] on the command
    throws, and a run whose traversal comes to that command among the
    top-level commands of the script ends with that exception before
    anything is written. *)
Theorem missing_import_target_fails
    (this : Context) (cmd : CommandT Node) (w : WordT Node) :
  import_of cmd w ->
  let literal := resolve world (dirname world (filename this)) (w_text w) in
  (is_Some (fs world !! literal) ->
   import_file world this (w_text w) = literal)
  /\ (fs world !! literal = None ->
      import_file world this (w_text w) = literal +:+ ".sh")
  /\ (fs world !! literal = None ->
      fs world !! (literal +:+ ".sh") = None ->
      Import world this cmd = Throw (ENOENT (literal +:+ ".sh"))
      /\ (forall ctx,
            visit (VNode (Command cmd)) ctx
              (Table (Context_visitor world this))
            = Throw (ENOENT (literal +:+ ".sh")))
      /\ (forall pre pre' post,
            new_Context world (filename this) = Ok this ->
            ast this = Script (pre ++ Command cmd :: post) ->
            visit_seq (traverseNode_node (Table (Context_visitor world this))
                         (VNode (ast this)) (Some (ast this))) pre
            = Ok pre' ->
            arguments_typed cmd ->
            main world (filename this)
            = Throw (ENOENT (literal +:+ ".sh")))).
Proof.
  intros Hcmd literal.
  destruct (import_file_order this (w_text w)) as [Ha Hb].
  split; [exact Ha|]. split; [exact Hb|].
  intros H1 H2.
  pose proof (Import_missing this cmd w Hcmd H1 H2) as HI.
  assert (HC : Context_Command world this cmd
               = Throw (ENOENT (literal +:+ ".sh"))).
  { rewrite (Context_Command_import _ _ _ _ Hcmd), HI. reflexivity. }
  split; [exact HI|]. split.
  - intros ctx. rewrite visit_Context_Command, HC. reflexivity.
  - intros pre pre' post Hnew Hast Hpre Htyped.
    exact (main_throws this pre pre' cmd post _ Hnew Hast Hpre Htyped HC).
Qed.

End ImportResolution.

Lemma missing_import_target_fails_witness :
  let this := mkCtx "/w/bad.sh" (Script [Command (import_cmd "does-not-exist")]) in
  import_of (import_cmd "does-not-exist") (mkWord "does-not-exist" [])
  /\ fs demo_world !! "/w/does-not-exist" = None
  /\ fs demo_world !! "/w/does-not-exist.sh" = None
  /\ new_Context demo_world "/w/bad.sh" = Ok this
  /\ Import demo_world this (import_cmd "does-not-exist")
     = Throw (ENOENT "/w/does-not-exist.sh")
  /\ main demo_world "/w/bad.sh" = Throw (ENOENT "/w/does-not-exist.sh").
Proof.
  intros this.
  assert (Ht : arguments_typed (import_cmd "does-not-exist")).
  { split; cbn; repeat constructor. }
  pose proof (proj2 (proj2
    (missing_import_target_fails demo_world this
       (import_cmd "does-not-exist") (mkWord "does-not-exist" [])
       (import_of_import_cmd "does-not-exist"))) eq_refl eq_refl)
    as (HI & _ & Hmain).
  split; [apply import_of_import_cmd|].
  split; [reflexivity|]. split; [reflexivity|]. split; [reflexivity|].
  split; [exact HI|].
  exact (Hmain [] [] [] eq_refl eq_refl eq_refl Ht).
Defined.

(** ** The code generator *)

Lemma append_assoc (a b c : string) : (a +:+ b) +:+ c = a +:+ (b +:+ c).
Proof.
  induction a as [|x a IH]; [reflexivity|].
  change (String x ((a +:+ b) +:+ c) = String x (a +:+ (b +:+ c))).
  f_equal. exact IH.
Qed.

Lemma source_If (i : IfT Node) :
  source (If i)
  = Some ("if " +:+ branch_source " " (if_clause i) +:+ nl
          +:+ and_then (branch_source nl (if_then i))
                ("then" +:+ nl +:+ branch_source nl (if_then i) +:+ nl)
          +:+ and_then (branch_source " " (if_else i))
                ("else" +:+ nl +:+ branch_source " " (if_else i) +:+ nl)
          +:+ nl +:+ "fi").
Proof. reflexivity. Qed.

(** C8: the text of a command is the sources of the prefix joined by spaces,
    a space, the source of the name (the text of that word; nothing when
    there is no name), a space, and the sources of the suffix joined by
    spaces; with an empty prefix the text starts with a space, with an empty
    suffix it ends with one. *)
Theorem Command_source (c : CommandT Node) :
  (exists name_source,
     source (Command c)
     = Some (join " " (map source (default [] (cmd_prefix c)))
             +:+ " " +:+ name_source +:+ " "
             +:+ join " " (map source (default [] (cmd_suffix c))))
     /\ match cmd_name c with
        | Some w => source (Word w) = Some name_source
        | None => name_source = ""
        end)
  /\ (forall name suffix empty,
        empty = None \/ empty = Some [] ->
        exists rest,
          source (Command (mkCommand name empty suffix)) = Some (" " +:+ rest))
  /\ (forall name prefix empty,
        empty = None \/ empty = Some [] ->
        exists front,
          source (Command (mkCommand name prefix empty))
          = Some (front +:+ " ")).
Proof.
  split; [|split].
  - destruct c as [[w|] [p|] [s|]]; eexists; split; reflexivity.
  - intros name suffix empty [-> | ->]; eexists; cbn; reflexivity.
  - intros name prefix empty H.
    exists (match prefix with Some l => join " " (map source l) | None => "" end
            +:+ " " +:+ match name with Some w => w_text w | None => "" end).
    destruct H as [-> | ->]; cbn; rewrite !append_assoc; reflexivity.
Qed.

(** C7, as amended: the text of an [If] node is ["if "], the sources of the
    clause joined by spaces and a newline; then ["then"], a newline, the
    sources of the then-branch joined by newlines and a newline when that
    joined text is not empty, and nothing when the branch is absent or its
    joined text is empty; then the [else] block under the same condition, its
    sources joined by spaces; then a newline and ["fi"].  With a then-branch
    of non-empty text and no else-branch the text is
    [if <clause>\nthen\n<then>\n\nfi], and whenever every branch that exists
    has a non-empty text the result is the one worded by presence. *)
Theorem If_source_guarded_by_text (i : IfT Node) :
  let c := branch_source " " (if_clause i) in
  let t := branch_source nl (if_then i) in
  let e := branch_source " " (if_else i) in
  source (If i)
  = Some ("if " +:+ c +:+ nl
          +:+ (if decide (t = "") then "" else "then" +:+ nl +:+ t +:+ nl)
          +:+ (if decide (e = "") then "" else "else" +:+ nl +:+ e +:+ nl)
          +:+ nl +:+ "fi")
  /\ (t <> "" -> if_else i = None ->
      source (If i)
      = Some ("if " +:+ c +:+ nl +:+ "then" +:+ nl +:+ t +:+ nl
              +:+ nl +:+ "fi"))
  /\ ((if_then i = None \/ t <> "") -> (if_else i = None \/ e <> "") ->
      source (If i) = Some (If_source_by_presence i)).
Proof.
  intros c t e. rewrite source_If. fold c t e. unfold and_then.
  split; [reflexivity|]. split.
  - intros Ht He. rewrite decide_False by assumption.
    assert (Ee : e = "") by (unfold e; rewrite He; reflexivity).
    rewrite Ee. cbn [decide]. rewrite decide_True by reflexivity.
    rewrite !append_assoc. reflexivity.
  - intros Ht He. unfold If_source_by_presence. fold c t e.
    assert (E1 : (if decide (t = "") then ""
                  else "then" +:+ nl +:+ t +:+ nl)
                 = match if_then i with
                   | Some _ => "then" +:+ nl +:+ t +:+ nl
                   | None => ""
                   end).
    { destruct Ht as [Ht|Ht].
      - unfold t. rewrite Ht. reflexivity.
      - rewrite decide_False by assumption.
        destruct (if_then i) eqn:E; [reflexivity|].
        exfalso. apply Ht. reflexivity. }
    assert (E2 : (if decide (e = "") then ""
                  else "else" +:+ nl +:+ e +:+ nl)
                 = match if_else i with
                   | Some _ => "else" +:+ nl +:+ e +:+ nl
                   | None => ""
                   end).
    { destruct He as [He|He].
      - unfold e. rewrite He. reflexivity.
      - rewrite decide_False by assumption.
        destruct (if_else i) eqn:E; [reflexivity|].
        exfalso. apply He. reflexivity. }
    rewrite E1, E2. reflexivity.
Qed.

(** C7 as stated fails: a then-branch that exists but has no command (what
    an import of a file without functions leaves behind) gets no [then]
    line. *)
Lemma If_source_empty_then_differs :
  let i := mkIf (Some (mkCompoundList [echo_hi] []))
                (Some (mkCompoundList [] [])) None in
  if_then i <> None
  /\ source (If i) = Some ("if  echo hi" +:+ nl +:+ nl +:+ "fi")
  /\ If_source_by_presence i
     = "if  echo hi" +:+ nl +:+ "then" +:+ nl +:+ nl +:+ nl +:+ "fi"
  /\ source (If i) <> Some (If_source_by_presence i).
Proof. vm_compute. repeat split; discriminate. Qed.

(** The same with a then-branch made of a pipeline, a node type for which
    [codegen] has no rule: its [source] is [undefined], which [join] prints
    as the empty string. *)
Example If_source_pipeline_then :
  let i := mkIf (Some (mkCompoundList [echo_hi] []))
                (Some (mkCompoundList [Pipeline [echo_hi; echo_hi]] []))
                None in
  source (If i) = Some ("if  echo hi" +:+ nl +:+ nl +:+ "fi")
  /\ source (If i) <> Some (If_source_by_presence i).
Proof. vm_compute. repeat split; discriminate. Qed.

(** ** Reads of [source] *)

Lemma reads_repeat node k rest :
  reads node (repeat ReadSource k ++ rest)
  = (repeat (source node) k ++ reads node rest)%list.
Proof.
  induction k as [|k IH]; [reflexivity|].
  cbn. rewrite IH. reflexivity.
Qed.

Lemma reads_memoized_repeat node k s :
  reads_memoized (Some s) node (repeat ReadSource k) = repeat s k.
Proof.
  induction k as [|k IH]; [reflexivity|]. cbn. rewrite IH. reflexivity.
Qed.

(** C9, as amended: [source] is computed at each read from the node as it is
    then, and nothing is kept.  However many times the text was read before,
    a read after a change returns the text of the changed node; for a leaf
    whose text was set to [t] that is [t], for a command or a function whose
    name was set to [t] it is the text built with [t].  Only without a change
    between the reads is this what memoization would return. *)
Theorem source_read_recomputes (node : Node) (change : Node -> Node)
    (k : nat) :
  reads node (repeat ReadSource k ++ [Mutate change; ReadSource])
  = (repeat (source node) k ++ [source (change node)])%list
  /\ reads node (repeat ReadSource k)
     = reads_memoized None node (repeat ReadSource k)
  /\ (forall t w, source (set_text t (Word w)) = Some t)
  /\ (forall t n, source (set_text t (Name n)) = Some t)
  /\ (forall t f,
        source (set_name_text t (Function f))
        = Some (t +:+ "() {" +:+ nl +:+ "  "
                +:+ join nl (map source (cl_commands (fn_body f)))
                +:+ nl +:+ "}")).
Proof.
  split; [|split; [|repeat split]].
  - rewrite reads_repeat. reflexivity.
  - destruct k as [|k]; [reflexivity|].
    cbn. rewrite reads_memoized_repeat. f_equal.
    induction k as [|k IH]; [reflexivity|]. cbn. rewrite IH. reflexivity.
Qed.

(** C9 as stated fails: the source of a command is read, the text of its
    name is changed, and the second read returns the new text, where
    memoization would return the first one again. *)
Lemma source_read_after_mutation_not_stale :
  let actions := [ReadSource; Mutate (set_name_text "printf"); ReadSource] in
  reads echo_hi actions = [Some " echo hi"; Some " printf hi"]
  /\ reads_memoized None echo_hi actions = [Some " echo hi"; Some " echo hi"]
  /\ reads echo_hi actions <> reads_memoized None echo_hi actions.
Proof. vm_compute. repeat split; discriminate. Qed.

(** ** Examples on the demo world *)

(** The import scenario: [import util; echo hi] with [util.sh] defining
    [greet]. *)
Example import_scenario_tree :
  traverse (VNode (Script [Command (import_cmd "util"); echo_hi]))
    (Table (Context_visitor demo_world
              (mkCtx "/w/main.sh"
                 (Script [Command (import_cmd "util"); echo_hi]))))
  = Ok (VNode (Script [Function (rename "util" greet); echo_hi])).
Proof. vm_compute. reflexivity. Qed.

Example import_scenario_output :
  main demo_world "/w/main.sh"
  = Ok ("util::greet() {" +:+ nl +:+ "   echo hi" +:+ nl +:+ "}" +:+ nl
        +:+ " echo hi" +:+ nl).
Proof. vm_compute. reflexivity. Qed.

(** A function nested in another statement of the imported file is not
    collected: only the elements of [commands] are looked at. *)
Example nested_function_not_collected :
  omap as_Function_node
    [If (mkIf (Some (mkCompoundList [echo_hi] []))
              (Some (mkCompoundList [Function greet] [])) None);
     Function greet]
  = [greet].
Proof. reflexivity. Qed.

(** An import of a file without functions leaves an empty branch behind. *)
Example import_of_empty_module :
  let root :=
    If (mkIf (Some (mkCompoundList [echo_hi] []))
             (Some (mkCompoundList [Command (import_cmd "empty")] []))
             None) in
  traverse (VNode root)
    (Table (Context_visitor demo_world (mkCtx "/w/main.sh" root)))
  = Ok (VNode (If (mkIf (Some (mkCompoundList [echo_hi] []))
                        (Some (mkCompoundList [] [])) None))).
Proof. vm_compute. reflexivity. Qed.

(** With the descend table in place: the handler of the user table for
    [Script] receives the script whose commands the traversal has already
    rewritten. *)
Lemma Script_handler_sees_rewritten_commands
    (user : Visitor) (h : Node -> context -> result value)
    (ast : value) (parent : option Node) (commands commands' : list Node) :
  methods user TScript = Some h ->
  visit_seq (fun c => traverseNode (Some (Script commands)) ast (Table user)
                        (VNode c)) commands
  = Ok commands' ->
  traverseNode parent ast (Table user) (VNode (Script commands))
  = (h (Script commands') (mkContext parent ast) ≫= fun out =>
     Ok match out with VUndefined => VNode (Script commands') | _ => out end).
Proof.
  intros Hh Hseq. cbn [traverseNode]. rewrite traverseNode_node_eq.
  cbn [descend_step]. cbn [traverseNode] in Hseq.
  rewrite Hseq. cbn [mbind result_bind].
  rewrite visit_Table by exact I. cbn [resolve_handler type].
  rewrite Hh. reflexivity.
Qed.

(** A command that is not an import goes through the whole traversal of the
    resolver unchanged when its arguments are words and redirections. *)
Lemma traverse_Command_without_import world this cmd parent ast :
  cmd_name cmd = None
  \/ (exists name, cmd_name cmd = Some name /\ w_text name <> "import") ->
  arguments_typed cmd ->
  traverseNode parent ast (Table (Context_visitor world this))
    (VNode (Command cmd))
  = Ok (VNode (Command cmd)).
Proof.
  intros H Ht. cbn [traverseNode]. rewrite traverse_Command by assumption.
  rewrite visit_Context_Command.
  assert (HC : Context_Command world this cmd = Ok VUndefined).
  { unfold Context_Command.
    destruct H as [-> | (name & -> & Hne)]; [reflexivity|].
    rewrite decide_False by assumption. reflexivity. }
  rewrite HC. reflexivity.
Qed.

(** * Further properties *)

(** ** [visit]: what it returns, and chains of visitors *)

Lemma reduce_visit_app ctx vs1 vs2 n :
  reduce_visit ctx (vs1 ++ vs2) n
  = (reduce_visit ctx vs1 n ≫= reduce_visit ctx vs2).
Proof.
  revert n. induction vs1 as [|v vs1 IH]; intros n; cbn; [reflexivity|].
  destruct (visit n ctx v) as [m|e]; cbn; [apply IH | reflexivity].
Qed.

Lemma reduce_visit_null ctx vs : reduce_visit ctx vs VNull = Ok VNull.
Proof.
  induction vs as [|v vs IH]; cbn; [reflexivity|].
  rewrite (proj1 (visit_absent ctx v)). exact IH.
Qed.

Lemma reduce_visit_defined ctx vs :
  list_all VisitorArg
    (fun v => forall node ctx, visit node ctx v <> Ok VUndefined) vs ->
  forall n, n <> VUndefined -> reduce_visit ctx vs n <> Ok VUndefined.
Proof.
  induction 1 as [|v Hv vs _ IH]; intros n Hn; cbn.
  - congruence.
  - destruct (visit n ctx v) as [m|e] eqn:E; cbn; [|discriminate].
    apply IH. intros ->. exact (Hv _ _ E).
Qed.

Lemma visit_not_undefined (visitor : VisitorArg) (node : value)
    (ctx : context) :
  visit node ctx visitor <> Ok VUndefined.
Proof.
  revert node ctx. induction visitor as [t|vs IH]; intros node ctx.
  - destruct node.
    + cbn. discriminate.
    + cbn. discriminate.
    + rewrite visit_Table by exact I.
      destruct (resolve_handler t (VNode n)) as [h|]; cbn; [|discriminate].
      destruct (h ctx) as [[]|]; cbn; discriminate.
    + rewrite visit_Table by exact I.
      destruct (resolve_handler t (VArray ns)) as [h|]; cbn; [|discriminate].
      destruct (h ctx) as [[]|]; cbn; discriminate.
  - rewrite visit_Many. destruct node; try discriminate.
    + apply reduce_visit_defined; [exact IH | discriminate].
    + apply reduce_visit_defined; [exact IH | discriminate].
Qed.

(** X1: [visit] never returns [undefined], for any node, context and visitor
    (a table, or arrays of visitors nested to any depth): a handler's
    [undefined] is replaced by the node, and an absent node by [null].  The
    same holds of [traverseNode] and [traverse], whatever the descend table
    is. *)
Theorem visit_never_undefined (visitor : VisitorArg) (node : value)
    (ctx : context) :
  visit node ctx visitor <> Ok VUndefined
  /\ (forall DescendVisitor parent ast,
        traverseNode_with DescendVisitor parent ast visitor node
        <> Ok VUndefined)
  /\ (forall DescendVisitor,
        traverse_with DescendVisitor node visitor <> Ok VUndefined).
Proof.
  split; [apply visit_not_undefined|]. split.
  - intros D parent ast. apply visit_not_undefined.
  - intros D. apply visit_not_undefined.
Qed.

Lemma reduce_visit_is_visit ctx vs d :
  d <> VUndefined -> reduce_visit ctx vs d = visit d ctx (Many vs).
Proof.
  intros Hd. rewrite visit_Many. destruct d; try reflexivity.
  - congruence.
  - apply reduce_visit_null.
Qed.

(** X2: an array of visitors is a pipeline.  Visiting with the concatenation
    of two arrays is visiting with the first and then, with what it returned,
    with the second; the empty array returns a present node as it is; and
    once the first part has answered [null] the result is [null] whatever
    visitors follow. *)
Theorem visit_chain_composes (node : value) (ctx : context)
    (vs1 vs2 : list VisitorArg) :
  visit node ctx (Many (vs1 ++ vs2))
  = (visit node ctx (Many vs1) ≫= fun d => visit d ctx (Many vs2))
  /\ (present node -> visit node ctx (Many []) = Ok node)
  /\ (visit node ctx (Many vs1) = Ok VNull ->
      visit node ctx (Many (vs1 ++ vs2)) = Ok VNull).
Proof.
  assert (E : visit node ctx (Many (vs1 ++ vs2))
              = (visit node ctx (Many vs1) ≫= fun d =>
                 visit d ctx (Many vs2))).
  { destruct (visit node ctx (Many vs1)) as [d|e] eqn:E1.
    - assert (Hd : d <> VUndefined).
      { intros ->. exact (visit_not_undefined _ _ _ E1). }
      cbn [mbind result_bind]. rewrite <- (reduce_visit_is_visit ctx vs2 d Hd).
      rewrite visit_Many in *. destruct node.
      + injection E1 as <-. symmetry. apply reduce_visit_null.
      + injection E1 as <-. symmetry. apply reduce_visit_null.
      + rewrite reduce_visit_app, E1. reflexivity.
      + rewrite reduce_visit_app, E1. reflexivity.
    - cbn [mbind result_bind]. rewrite visit_Many in *.
      destruct node; try discriminate.
      + rewrite reduce_visit_app, E1. reflexivity.
      + rewrite reduce_visit_app, E1. reflexivity. }
  split; [exact E|]. split.
  - destruct node; cbn; tauto.
  - intros H. rewrite E, H. cbn [mbind result_bind]. apply visit_absent.
Qed.

(** X3: in a table, the handler named after the node type takes precedence:
    when it exists the result does not depend on [defaultMethod].  And an
    array is not dispatched on a type: when a table has answered with an
    array, a following table without [defaultMethod] hands the array on
    unchanged, so its handlers never see the elements. *)
Theorem visit_handler_precedence (t : Visitor) (ctx : context) :
  (forall n m d',
     methods t (type n) = Some m ->
     visit (VNode n) ctx (Table t)
     = visit (VNode n) ctx (Table (mkVisitor (methods t) d')))
  /\ (forall node ns next,
        visit node ctx (Table t) = Ok (VArray ns) ->
        defaultMethod next = None ->
        visit node ctx (Many [Table t; Table next]) = Ok (VArray ns)).
Proof.
  split.
  - intros n m d' Hm. cbn. rewrite Hm. reflexivity.
  - intros node ns next Ht Hd. rewrite visit_chain2, Ht.
    cbn. rewrite Hd. reflexivity.
Qed.

(** ** The import resolver: what it changes and how it fails *)

Section ResolverMore.

Variable world : World.
Variable this : Context.

(** X4: the resolver only ever replaces [import] commands, and only by an
    array of [Function] nodes.  Whatever node it visits without throwing
    comes back as it is, unless it is a command named [import], which comes
    back as the array that [Import] returned; no node is deleted and none is
    replaced by a single node. *)
Theorem Context_visitor_result (n : Node) (ctx : context) (v : value) :
  visit (VNode n) ctx (Table (Context_visitor world this)) = Ok v ->
  v = VNode n
  \/ exists cmd name funcs,
       n = Command cmd /\ cmd_name cmd = Some name /\ w_text name = "import"
       /\ Import world this cmd = Ok funcs
       /\ v = VArray (map Function funcs).
Proof.
  destruct n; try (cbn; intros [= <-]; left; reflexivity).
  rewrite visit_Context_Command. unfold Context_Command.
  destruct (cmd_name c) as [name|] eqn:En;
    [|cbn; intros [= <-]; left; reflexivity].
  destruct (decide (w_text name = "import")) as [Ei|Ei];
    [|cbn; intros [= <-]; left; reflexivity].
  destruct (Import world this c) as [funcs|e] eqn:EI; cbn; [|discriminate].
  intros [= <-]. right. exists c, name, funcs. repeat split; assumption.
Qed.

(** X5: an [import] command without suffix, or whose suffix holds no [Word],
    throws a [TypeError], from [Import], from the [Command] method and from
    [visit], whatever the file system holds. *)
Theorem Import_malformed (cmd : CommandT Node) (name : WordT Node)
    (ctx : context) :
  cmd_name cmd = Some name -> w_text name = "import" ->
  cmd_suffix cmd = None
  \/ (exists suffix, cmd_suffix cmd = Some suffix
                     /\ Forall (fun n => type n <> TWord) suffix) ->
  exists msg,
    Import world this cmd = Throw (TypeError msg)
    /\ Context_Command world this cmd = Throw (TypeError msg)
    /\ visit (VNode (Command cmd)) ctx (Table (Context_visitor world this))
       = Throw (TypeError msg).
Proof.
  intros Hn Ht Hs.
  assert (HI : exists msg, Import world this cmd = Throw (TypeError msg)).
  { unfold Import. destruct Hs as [-> | (suffix & -> & Hw)].
    - eexists. reflexivity.
    - cbn. rewrite (omap_Word_none _ Hw). eexists. reflexivity. }
  destruct HI as [msg HI]. exists msg.
  assert (HC : Context_Command world this cmd = Throw (TypeError msg)).
  { unfold Context_Command. rewrite Hn, Ht, HI. reflexivity. }
  split; [exact HI|]. split; [exact HC|].
  rewrite visit_Context_Command, HC. reflexivity.
Qed.

(** X6: something at the literal path always wins over the [.sh] fallback.
    When the literal path is a file, its text is what [Import] parses, even
    if the path with [.sh] exists too; when it is a directory, [Import]
    fails with [EISDIR] on it and the path with [.sh] is never tried. *)
Theorem Import_literal_first (cmd : CommandT Node) (w : WordT Node) :
  import_of cmd w ->
  let literal := resolve world (dirname world (filename this)) (w_text w) in
  (forall text,
     fs world !! literal = Some (File text) ->
     Import world this cmd
     = (parse world text ≫= fun commands =>
        Ok (map (rename (basename world literal (extname world literal)))
              (omap as_Function_node commands))))
  /\ (fs world !! literal = Some Directory ->
      Import world this cmd = Throw (EISDIR literal)).
Proof.
  intros Hcmd literal.
  assert (Hf : forall e, fs world !! literal = Some e ->
                 import_file world this (w_text w) = literal).
  { intros e He. apply import_file_order. exists e. exact He. }
  split.
  - intros text Hl. rewrite (Import_eq _ _ _ _ Hcmd), (Hf _ Hl).
    unfold readFileSync. fold literal. rewrite Hl. reflexivity.
  - intros Hl. rewrite (Import_eq _ _ _ _ Hcmd), (Hf _ Hl).
    unfold readFileSync. fold literal. rewrite Hl. reflexivity.
Qed.

(** X7: [Import] looks at the first [Word] of the suffix only: two import
    commands with the same first word give the same result, whatever else
    their prefix and suffix hold. *)
Theorem Import_first_word_only (cmd1 cmd2 : CommandT Node) (w : WordT Node) :
  import_of cmd1 w -> import_of cmd2 w ->
  Import world this cmd1 = Import world this cmd2.
Proof.
  intros H1 H2.
  rewrite (Import_eq _ _ _ _ H1), (Import_eq _ _ _ _ H2). reflexivity.
Qed.

End ResolverMore.

(** ** Renaming *)



(** ** The run, before the traversal *)

(** X9: a run on a root file that does not exist ends with [ENOENT] on that
    file, a run on a directory with [EISDIR], and a run on a file that the
    parser rejects ends with the parser's exception; in each case nothing is
    written. *)
Theorem main_root_file_failures (world : World) (file : string) :
  (fs world !! file = None -> main world file = Throw (ENOENT file))
  /\ (fs world !! file = Some Directory ->
      main world file = Throw (EISDIR file))
  /\ (forall text e,
        fs world !! file = Some (File text) -> parse world text = Throw e ->
        main world file = Throw e).
Proof.
  unfold main, new_Context, readFileSync. repeat split.
  - intros ->. reflexivity.
  - intros ->. reflexivity.
  - intros text e -> Hp. cbn. rewrite Hp. reflexivity.
Qed.

(** ** The generated text *)

Lemma append_empty (a b : string) : a +:+ b = "" -> a = "" /\ b = "".
Proof.
  destruct a; [intros H; split; [reflexivity | exact H] | discriminate].
Qed.

Lemma append_nonempty_l (a b : string) : a <> "" -> a +:+ b <> "".
Proof. intros Ha H. apply Ha. apply (append_empty _ _ H). Qed.

Lemma append_nonempty_r (a b : string) : b <> "" -> a +:+ b <> "".
Proof. intros Hb H. apply Hb. apply (append_empty _ _ H). Qed.

Lemma join_cons sep x (l : list (option string)) :
  l <> [] -> join sep (x :: l) = default "" x +:+ sep +:+ join sep l.
Proof. destruct l; [congruence | reflexivity]. Qed.

Lemma join_nonempty sep (l : list (option string)) s :
  Some s ∈ l -> s <> "" -> join sep l <> "".
Proof.
  intros Hin Hs. induction l as [|x l IH]; [inversion Hin|].
  destruct l as [|y l].
  - apply list_elem_of_singleton in Hin as <-. exact Hs.
  - rewrite join_cons by discriminate.
    apply elem_of_cons in Hin as [<- | Hin].
    + apply append_nonempty_l. exact Hs.
    + apply append_nonempty_r, append_nonempty_r. exact (IH Hin).
Qed.

Lemma join_app sep (l1 l2 : list (option string)) :
  l1 <> [] -> l2 <> [] ->
  join sep (l1 ++ l2) = join sep l1 +:+ sep +:+ join sep l2.
Proof.
  intros H1 H2. induction l1 as [|x l1 IH]; [congruence|].
  destruct l1 as [|y l1].
  - cbn [app]. rewrite join_cons by assumption. reflexivity.
  - change ((x :: y :: l1) ++ l2)%list with (x :: ((y :: l1) ++ l2))%list.
    rewrite join_cons by discriminate. rewrite IH by discriminate.
    rewrite (join_cons sep x (y :: l1)) by discriminate.
    rewrite !append_assoc. reflexivity.
Qed.


Lemma source_Command_nonempty c s : source (Command c) = Some s -> s <> "".
Proof.
  cbn. intros [= <-] H.
  apply append_empty in H as [_ H]. discriminate H.
Qed.

Lemma source_Function_nonempty f s : source (Function f) = Some s -> s <> "".
Proof.
  cbn. intros [= <-] H.
  apply append_empty in H as [_ H]. discriminate H.
Qed.

Lemma source_If_nonempty i s : source (If i) = Some s -> s <> "".
Proof. rewrite source_If. intros [= <-] H. discriminate H. Qed.

(** X11: the text of a command, of a function and of an [If] node is never
    empty (a command prints at least its two spaces).  Hence a then-branch
    that holds such a node always gets its [then] block, and an else-branch
    that holds one its [else] block. *)
Theorem If_block_printed (i : IfT Node) (c : CompoundListT Node) (n : Node) :
  n ∈ cl_commands c ->
  type n = TCommand \/ type n = TFunction \/ type n = TIf ->
  (exists s, source n = Some s /\ s <> "")
  /\ (if_then i = Some c ->
      exists rest,
        source (If i)
        = Some ("if " +:+ branch_source " " (if_clause i) +:+ nl
                +:+ "then" +:+ nl +:+ branch_source nl (if_then i) +:+ nl
                +:+ rest))
  /\ (if_else i = Some c ->
      exists front,
        source (If i)
        = Some (front +:+ "else" +:+ nl +:+ branch_source " " (if_else i)
                +:+ nl +:+ nl +:+ "fi")).
Proof.
  intros Hin Ht.
  assert (Hs : exists s, source n = Some s /\ s <> "").
  { destruct n; cbn in Ht; try (destruct Ht as [?|[?|?]]; discriminate).
    - eexists. split; [reflexivity|]. eapply source_Command_nonempty.
      reflexivity.
    - eexists. split; [reflexivity|]. eapply source_Function_nonempty.
      reflexivity.
    - eexists. split; [reflexivity|]. eapply source_If_nonempty.
      reflexivity. }
  split; [exact Hs|]. destruct Hs as (s & Hs & Hne).
  assert (Hj : forall sep, join sep (map source (cl_commands c)) <> "").
  { intros sep. apply (join_nonempty sep _ s); [|exact Hne].
    rewrite <- Hs. apply list_elem_of_fmap. exists n. split; [reflexivity|].
    exact Hin. }
  split; intros E; rewrite source_If.
  - assert (Hb : branch_source nl (if_then i) <> "").
    { rewrite E. apply Hj. }
    unfold and_then at 1. rewrite decide_False by exact Hb.
    eexists. rewrite !append_assoc. reflexivity.
  - assert (Hb : branch_source " " (if_else i) <> "").
    { rewrite E. apply Hj. }
    unfold and_then at 2. rewrite decide_False by exact Hb.
    exists ("if " +:+ branch_source " " (if_clause i) +:+ nl
            +:+ and_then (branch_source nl (if_then i))
                  ("then" +:+ nl +:+ branch_source nl (if_then i) +:+ nl)).
    rewrite !append_assoc. reflexivity.
Qed.

(** X12: the text of a script is compositional.  An empty script prints as
    the empty string, a script of one command as that command, and the text
    of two non-empty lists of commands put one after the other is the two
    texts with a newline in between; a [CompoundList] prints like a script
    of the same commands. *)
Theorem Script_source_concat (a b : list Node) :
  source (Script []) = Some ""
  /\ (forall n, source (Script [n]) = Some (default "" (source n)))
  /\ (a <> [] -> b <> [] ->
      forall sa sb,
        source (Script a) = Some sa -> source (Script b) = Some sb ->
        source (Script (a ++ b)) = Some (sa +:+ nl +:+ sb))
  /\ (forall redirections,
        source (CompoundList (mkCompoundList a redirections))
        = source (Script a)).
Proof.
  split; [reflexivity|]. split; [reflexivity|]. split; [|reflexivity].
  intros Ha Hb sa sb [= <-] [= <-]. cbn [source].
  rewrite map_app, join_app; [reflexivity | |].
  - destruct a; [congruence | discriminate].
  - destruct b; [congruence | discriminate].
Qed.

(** X13: the text of a renamed function is the module name, [::] and the
    text of the function as it was. *)
Theorem source_rename (mod_ : string) (f : FunctionT Node) :
  exists s,
    source (Function f) = Some s
    /\ source (Function (rename mod_ f)) = Some (mod_ +:+ "::" +:+ s).
Proof.
  eexists. split; [reflexivity|]. cbn. rewrite !append_assoc. reflexivity.
Qed.


(** ** The resolver on whole trees

    These go through the descend step, which is modelled from the
    specification ([descend_step]). *)

Section ImportFree.

Variable world : World.
Variable this : Context.

Let V : VisitorArg := Table (Context_visitor world this).

Let P (n : Node) : Prop :=
  import_free n = true ->
  forall (ast : value) (parent : option Node),
    traverseNode_node V ast parent n = Ok (VNode n).

Lemma visit_not_Command n ctx :
  type n <> TCommand -> visit (VNode n) ctx V = Ok (VNode n).
Proof. destruct n; cbn; try reflexivity. congruence. Qed.

Lemma visit_Command_not_import cmd ctx :
  is_import cmd = false ->
  visit (VNode (Command cmd)) ctx V = Ok (VNode (Command cmd)).
Proof.
  intros H. unfold V. rewrite visit_Context_Command.
  unfold Context_Command, is_import in *.
  destruct (cmd_name cmd) as [name|]; [|reflexivity].
  apply bool_decide_eq_false in H. rewrite decide_False by exact H.
  reflexivity.
Qed.

Lemma seq_free ast p l :
  list_all Node P l -> forallb import_free l = true ->
  visit_seq (fun c => traverseNode_node V ast (Some p) c) l = Ok l.
Proof.
  intros H Hf. apply visit_seq_Forall_id.
  induction H as [|c Hc l _ IH]; [constructor|].
  cbn in Hf. apply andb_prop in Hf as [Hc' Hl].
  constructor; [exact (Hc Hc' ast (Some p)) | exact (IH Hl)].
Qed.

Lemma opt_seq_free ast p o :
  option_all _ (list_all Node P) o ->
  match o with Some l => forallb import_free l | None => true end = true ->
  visit_opt_seq (fun c => traverseNode_node V ast (Some p) c) o = Ok o.
Proof.
  intros [l H|] Hf; cbn; [|reflexivity].
  fold (visit_seq (fun c => traverseNode_node V ast (Some p) c) l).
  rewrite (seq_free ast p l H Hf). reflexivity.
Qed.

Lemma descend_CompoundList_free ast c :
  CompoundListT_all Node P c ->
  forallb import_free (cl_commands c)
  && forallb import_free (cl_redirections c) = true ->
  descend_CompoundList (fun p c => traverseNode_node V ast (Some p) c) c
  = Ok (VNode (CompoundList c)).
Proof.
  intros [cs Hcs rs Hrs] Hf. cbn in Hf. apply andb_prop in Hf as [H1 H2].
  unfold descend_CompoundList. cbn [cl_commands cl_redirections].
  rewrite (seq_free ast _ cs Hcs H1). cbn [mbind result_bind].
  rewrite (seq_free ast _ rs Hrs H2). reflexivity.
Qed.

Lemma cl_field_free ast p field c :
  CompoundListT_all Node P c ->
  forallb import_free (cl_commands c)
  && forallb import_free (cl_redirections c) = true ->
  cl_field
    (fun p c =>
       descend_CompoundList (fun p c => traverseNode_node V ast (Some p) c) c
       ≫= fun d => visit d (mkContext (Some p) ast) V)
    p field c
  = Ok c.
Proof.
  intros H Hf. unfold cl_field.
  rewrite (descend_CompoundList_free ast c H Hf). reflexivity.
Qed.

Lemma opt_cl_free ast p field o :
  option_all _ (CompoundListT_all Node P) o ->
  match o with
  | Some c => forallb import_free (cl_commands c)
              && forallb import_free (cl_redirections c)
  | None => true
  end = true ->
  visit_opt
    (fun c =>
       descend_CompoundList (fun p c => traverseNode_node V ast (Some p) c) c
       ≫= fun d => visit d (mkContext (Some p) ast) V)
    (as_CompoundList field) o
  = Ok o.
Proof.
  intros [c H|] Hf; cbn [visit_opt]; [|reflexivity].
  rewrite (descend_CompoundList_free ast c H Hf). reflexivity.
Qed.

Lemma name_field_free ast p field n :
  name_field (fun p c => visit (VNode c) (mkContext (Some p) ast) V)
    p field n = Ok n.
Proof. reflexivity. Qed.

Lemma word_field_free ast p field w :
  word_field (fun p c => visit (VNode c) (mkContext (Some p) ast) V)
    p field w = Ok w.
Proof. reflexivity. Qed.

Lemma opt_word_free ast p field (o : option (WordT Node)) :
  visit_opt
    ((fun c => visit (VNode c) (mkContext (Some p) ast) V) ∘ Word)
    (as_Word field) o = Ok o.
Proof. destruct o; reflexivity. Qed.

Lemma import_free_kept n : P n.
Proof.
  induction n; intros Hf ast parent; rewrite traverseNode_node_eq;
    cbn [import_free] in Hf;
    repeat match goal with
           | H : CommandT_all _ _ _ |- _ => destruct H
           | H : FunctionT_all _ _ _ |- _ => destruct H
           | H : IfT_all _ _ _ |- _ => destruct H
           | H : _ && _ = true |- _ => apply andb_prop in H as [? ?]
           end;
    cbn [descend_step cmd_name cmd_prefix cmd_suffix fn_name fn_redirections
         fn_body if_clause if_then if_else] in *.
  all: fold V.
  all: repeat first
         [ rewrite (seq_free ast) by assumption
         | rewrite (opt_seq_free ast) by assumption
         | rewrite (cl_field_free ast)
             by (try assumption; apply andb_true_intro; split; assumption)
         | rewrite (opt_cl_free ast) by assumption
         | rewrite (descend_CompoundList_free ast)
             by (try assumption; apply andb_true_intro; split; assumption)
         | rewrite (name_field_free ast)
         | rewrite (word_field_free ast)
         | rewrite (opt_word_free ast)
         | rewrite IHn1 by assumption
         | rewrite IHn2 by assumption ];
       cbn [mbind result_bind as_Node].
  all: try (apply visit_not_Command; discriminate).
  apply visit_Command_not_import. apply negb_true_iff. assumption.
Qed.

(** X15: a tree without [import] command goes through the resolver
    unchanged, whatever its depth and whatever the file system holds: the
    traversal returns the tree itself and throws nothing.  (With the descend
    step as the specification describes it.) *)
Theorem resolver_keeps_import_free (T : Node) :
  import_free T = true ->
  traverse (VNode T) V = Ok (VNode T)
  /\ forall parent ast, traverseNode parent ast V (VNode T) = Ok (VNode T).
Proof.
  intros H. split.
  - exact (import_free_kept T H (VNode T) None).
  - intros parent ast. exact (import_free_kept T H ast parent).
Qed.

Lemma resolved_seq ast p cmds parts :
  Forall2 (resolved_as world this) cmds parts ->
  visit_seq (fun c => traverseNode_node V ast (Some p) c) cmds
  = Ok (concat parts).
Proof.
  induction 1 as [|c part cmds parts Hc _ IH]; [reflexivity|].
  cbn [visit_seq]. fold (visit_seq (fun c => traverseNode_node V ast (Some p) c) cmds).
  rewrite IH.
  destruct Hc as [[Hf ->] | (cmd & funcs & -> & Hi & Ht & HI & ->)].
  - rewrite (import_free_kept c Hf ast (Some p)). reflexivity.
  - unfold V. rewrite traverse_Command by exact Ht.
    rewrite visit_Context_Command. unfold Context_Command.
    unfold is_import in Hi. destruct (cmd_name cmd) as [name|]; [|discriminate].
    apply bool_decide_eq_true in Hi. rewrite decide_True by exact Hi.
    rewrite HI. reflexivity.
Qed.

(** X16: imports at the top level of the root script are spliced in place.
    When every top-level command is either free of imports or an [import]
    that [Import] resolves, the resolver returns the script in which each
    import is replaced by its functions, in order, and every other command
    is as it was; [main] then prints the text of that script, one command
    per line.  (With the descend step as the specification describes
    it.) *)
Theorem resolver_splices_top_level (cmds : list Node)
    (parts : list (list Node)) :
  Forall2 (resolved_as world this) cmds parts ->
  traverse (VNode (Script cmds)) V = Ok (VNode (Script (concat parts)))
  /\ (new_Context world (filename this) = Ok this ->
      ast this = Script cmds ->
      main world (filename this)
      = Ok (join nl (map source (concat parts)) +:+ nl)).
Proof.
  intros H.
  assert (Ht : traverse (VNode (Script cmds)) V
               = Ok (VNode (Script (concat parts)))).
  { unfold traverse, traverseNode. rewrite traverseNode_node_eq.
    cbn [descend_step]. fold V.
    rewrite (resolved_seq _ _ _ _ H). reflexivity. }
  split; [exact Ht|].
  intros Hnew Hast. unfold main. rewrite Hnew. cbn [mbind result_bind].
  unfold process. fold V. rewrite Hast, Ht. cbn [mbind result_bind].
  rewrite codegen_structure. reflexivity.
Qed.

End ImportFree.

(** ** Instances on the demo world *)

Lemma Context_visitor_result_witness :
  visit (VNode (Command (import_cmd "util"))) (mkContext None VNull)
    (Table (Context_visitor demo_world demo_main))
  = Ok (VArray [Function (rename "util" greet)])
  /\ (VArray [Function (rename "util" greet)]
      = VNode (Command (import_cmd "util"))
      \/ exists cmd name funcs,
           Command (import_cmd "util") = Command cmd
           /\ cmd_name cmd = Some name /\ w_text name = "import"
           /\ Import demo_world demo_main cmd = Ok funcs
           /\ VArray [Function (rename "util" greet)]
              = VArray (map Function funcs)).
Proof.
  split; [reflexivity|].
  exact (Context_visitor_result demo_world demo_main
           (Command (import_cmd "util")) (mkContext None VNull)
           (VArray [Function (rename "util" greet)]) eq_refl).
Defined.

Lemma Import_malformed_witness :
  cmd_name bare_import = Some (mkWord "import" [])
  /\ w_text (mkWord (A := Node) "import" []) = "import"
  /\ cmd_suffix bare_import = None
  /\ exists msg,
       Import demo_world demo_main bare_import = Throw (TypeError msg)
       /\ Context_Command demo_world demo_main bare_import
          = Throw (TypeError msg)
       /\ visit (VNode (Command bare_import)) (mkContext None VNull)
            (Table (Context_visitor demo_world demo_main))
          = Throw (TypeError msg).
Proof.
  repeat (split; [reflexivity|]).
  exact (Import_malformed demo_world demo_main bare_import
           (mkWord "import" []) (mkContext None VNull) eq_refl eq_refl
           (or_introl eq_refl)).
Defined.

Lemma Import_literal_first_witness :
  import_of (import_cmd "util.sh") (mkWord "util.sh" [])
  /\ fs demo_world !! "/w/util.sh" = Some (File "function greet { echo hi; }")
  /\ Import demo_world demo_main (import_cmd "util.sh")
     = Ok [rename "util" greet].
Proof.
  split; [apply import_of_import_cmd|]. split; [reflexivity|].
  exact (proj1 (Import_literal_first demo_world demo_main
                  (import_cmd "util.sh") (mkWord "util.sh" [])
                  (import_of_import_cmd "util.sh"))
           "function greet { echo hi; }" eq_refl).
Defined.

Lemma import_of_import_two_words :
  import_of import_two_words (mkWord "util" []).
Proof.
  exists (mkWord "import" []), [], [Word (mkWord "extra" [])].
  repeat split. constructor.
Qed.

Lemma Import_first_word_only_witness :
  import_of (import_cmd "util") (mkWord "util" [])
  /\ import_of import_two_words (mkWord "util" [])
  /\ Import demo_world demo_main (import_cmd "util")
     = Import demo_world demo_main import_two_words.
Proof.
  split; [apply import_of_import_cmd|].
  split; [apply import_of_import_two_words|].
  exact (Import_first_word_only demo_world demo_main (import_cmd "util")
           import_two_words (mkWord "util" []) (import_of_import_cmd "util")
           import_of_import_two_words).
Defined.


Lemma If_block_printed_witness :
  let c := mkCompoundList [echo_hi] [] in
  let i := mkIf None (Some c) None in
  echo_hi ∈ cl_commands c
  /\ (type echo_hi = TCommand \/ type echo_hi = TFunction
      \/ type echo_hi = TIf)
  /\ exists rest,
       source (If i)
       = Some ("if " +:+ branch_source " " (if_clause i) +:+ nl
               +:+ "then" +:+ nl +:+ branch_source nl (if_then i) +:+ nl
               +:+ rest).
Proof.
  intros c i.
  assert (Hin : echo_hi ∈ cl_commands c) by (apply list_elem_of_singleton; reflexivity).
  split; [exact Hin|]. split; [left; reflexivity|].
  exact (proj1 (proj2 (If_block_printed i c echo_hi Hin
                         (or_introl eq_refl))) eq_refl).
Defined.

Lemma resolver_keeps_import_free_witness :
  import_free (Script [echo_hi]) = true
  /\ traverse (VNode (Script [echo_hi]))
       (Table (Context_visitor demo_world demo_main))
     = Ok (VNode (Script [echo_hi])).
Proof.
  split; [reflexivity|].
  exact (proj1 (resolver_keeps_import_free demo_world demo_main
                  (Script [echo_hi]) eq_refl)).
Defined.

Lemma resolved_as_demo :
  Forall2 (resolved_as demo_world demo_main)
    [Command (import_cmd "util"); echo_hi]
    [[Function (rename "util" greet)]; [echo_hi]].
Proof.
  constructor; [|constructor; [|constructor]].
  - right. exists (import_cmd "util"), [rename "util" greet].
    split; [reflexivity|]. split; [reflexivity|].
    split; [split; cbn; repeat constructor|].
    split; reflexivity.
  - left. split; reflexivity.
Qed.

Lemma resolver_splices_top_level_witness :
  Forall2 (resolved_as demo_world demo_main)
    [Command (import_cmd "util"); echo_hi]
    [[Function (rename "util" greet)]; [echo_hi]]
  /\ traverse (VNode (Script [Command (import_cmd "util"); echo_hi]))
       (Table (Context_visitor demo_world demo_main))
     = Ok (VNode (Script [Function (rename "util" greet); echo_hi]))
  /\ main demo_world "/w/main.sh"
     = Ok (join nl (map source [Function (rename "util" greet); echo_hi])
           +:+ nl).
Proof.
  split; [exact resolved_as_demo|].
  pose proof (resolver_splices_top_level demo_world demo_main _ _
                resolved_as_demo) as [Ht Hm].
  split; [exact Ht|]. exact (Hm eq_refl eq_refl).
Defined.
